(** * pyrocko.fdsn.station: channel selection and response assembly

    A shallow embedding of the core of [src/fdsn/station.py]: the station
    metadata records, the epoch predicate [spans], the grouping of channels
    into buckets ([get_channel_groups]), the ranking of buckets
    ([choose_channels]), the conversion of response stages into transfer
    function terms ([get_pyrocko_response]) and the averaging of channel
    positions ([pyrocko_station_from_channels]).

    Conventions of the embedding.
    - A Python [float] is an IEEE 754 binary64 value: [spec_float] with the
      operations of the Standard Library's [SpecFloat] at precision 53 and
      maximal exponent 1024.  Literals are obtained from primitive floats.
    - A Python [dict] is a [gmap]; iterating over one goes through
      [map_to_list], whose order is as unspecified as that of a Python 2
      dictionary.
    - [logger.warn] appends to a log that is threaded through the
      computation; [raise] aborts it but keeps the log written so far. *)

From Stdlib Require Import ZArith Floats Ascii String Sorted.
From stdpp Require Import base option list strings gmap fin_maps.

Open Scope Z_scope.
Open Scope string_scope.
Open Scope list_scope.

(** ** Floating point numbers *)

Module F.

Definition prec : Z := 53.
Definition emax : Z := 1024.

Definition float : Type := spec_float.

Definition add : float → float → float := SFadd prec emax.
Definition sub : float → float → float := SFsub prec emax.
Definition mul : float → float → float := SFmul prec emax.
Definition div : float → float → float := SFdiv prec emax.
Definition opp : float → float := SFopp.
Definition abs : float → float := SFabs.
Definition eqb : float → float → bool := SFeqb.
Definition ltb : float → float → bool := SFltb.
Definition leb : float → float → bool := SFleb.
(** Python's [a > b] and [a >= b] are [b < a] and [b <= a]. *)
Definition gtb (a b : float) : bool := ltb b a.
Definition geb (a b : float) : bool := leb b a.

Definition nan : float := S754_nan.
Definition infinity : float := S754_infinity false.
Definition zero : float := S754_zero false.

Definition is_nan (x : float) : bool :=
  match x with S754_nan => true | _ => false end.

(** [numpy.isfinite] *)
Definition is_finite (x : float) : bool :=
  match x with S754_zero _ | S754_finite _ _ _ => true | _ => false end.

(** Conversion of a Python integer, [float(n)]. *)
Definition of_Z (n : Z) : float := binary_normalize prec emax n 0 false.

(** The value of a literal. *)
Definition lit (x : PrimFloat.float) : float := Prim2SF x.

Definition one : float := Eval vm_compute in lit 1.0%float.
Definition two : float := Eval vm_compute in lit 2.0%float.
Definition hundred : float := Eval vm_compute in of_Z 100.
(** The literal [0.99999] of [choose_channels]. *)
#[warnings="-inexact-float"]
Definition c0_99999 : float := Eval vm_compute in lit 0.99999%float.

End F.

Abbreviation float := F.float.

(** ** Exceptions, the log and the monad that carries them *)

(** The exceptions the modelled code can raise.  The two named errors and
    [InconsistentChannelLocations] are the module's own; [AttributeError],
    [IndexError] and [KeyError] are what Python raises on [None.attr], on
    [[][0]] and on a key a dictionary does not have. *)
Inductive exn : Type :=
| NoResponseInformation (msg : string)
| MultipleResponseInformation (msg : string)
| InconsistentChannelLocations
| AttributeError
| IndexError
| KeyError.

Inductive result (A : Type) : Type :=
| Ok (a : A)
| Raise (e : exn).
Arguments Ok {A} a.
Arguments Raise {A} e.

(** A computation writes a log of [W] and returns or raises. *)
Definition M (W A : Type) : Type := list W * result A.

Section Monad.
Context {W : Type}.

#[export] Instance M_ret : MRet (M W) := λ A a, ([], Ok a).

#[export] Instance M_bind : MBind (M W) := λ A B k m,
  match m with
  | (log, Ok a) => let '(log', r) := k a in (log ++ log', r)
  | (log, Raise e) => (log, Raise e)
  end.

Definition raise {A} (e : exn) : M W A := ([], Raise e).
Definition warn (w : W) : M W unit := ([w], Ok tt).

Definition log_of {A} (m : M W A) : list W := fst m.
Definition outcome {A} (m : M W A) : result A := snd m.

(** [for x in xs: ys.append(f(x))], stopping at the first exception. *)
Fixpoint mapM {A B} (f : A → M W B) (xs : list A) : M W (list B) :=
  match xs with
  | [] => mret []
  | x :: xs' => y ← f x; ys ← mapM f xs'; mret (y :: ys)
  end.

(** [for x in xs: acc = f(acc, x)] *)
Fixpoint foldM {A B} (f : B → A → M W B) (acc : B) (xs : list A) : M W B :=
  match xs with
  | [] => mret acc
  | x :: xs' => acc' ← f acc x; foldM f acc' xs'
  end.

(** [x.attr] where [x] may be [None]. *)
Definition attr {A} (x : option A) : M W A :=
  match x with
  | Some a => mret a
  | None => raise AttributeError
  end.
End Monad.

(** ** Strings *)

(** The characters [str.strip()] removes: space, tab, line feed, vertical
    tab, form feed and carriage return. *)
Definition is_whitespace (a : ascii) : bool :=
  let n := N_of_ascii a in
  (N.eqb n 32 || N.leb 9 n && N.leb n 13)%N.

Fixpoint lstrip (s : string) : string :=
  match s with
  | String a s' => if is_whitespace a then lstrip s' else s
  | EmptyString => EmptyString
  end.

Definition strip (s : string) : string :=
  String.rev (lstrip (String.rev (lstrip s))).

(** [len(s)] *)
Definition len (s : string) : nat := String.length s.

(** [s[:2]] *)
Definition prefix2 (s : string) : string := substring 0 2 s.

(** [s[i]] as a one-character string, for an index in range. *)
Definition char_at (i : nat) (s : string) : option string :=
  match String.get i s with
  | Some a => Some (String a EmptyString)
  | None => None
  end.

(** [l.index(x)], [None] standing for [ValueError]. *)
Fixpoint index {A} `{EqDecision A} (x : A) (l : list A) : option nat :=
  match l with
  | [] => None
  | y :: l' => if decide (y = x) then Some 0%nat else S <$> index x l'
  end.

(** ** The metadata model *)

(** [Units]: a name and a description that no operation reads. *)
Record Units := { units_name : string }.

(** [Gain], also the base of [Sensitivity]. *)
Record Gain := {
  gain_value : option float;
  gain_frequency : option float }.

Record Sensitivity := {
  sens_gain : Gain;
  sens_input_units : option Units;
  sens_output_units : option Units }.

(** [PoleZero]: [real] and [imaginary] are [FloatNoUnit], of which only
    [value] is read. *)
Record PoleZero := {
  real : float;
  imaginary : float }.

(** [BaseFilter], with the fields the filters share; the contents of the
    unsupported filters ([Coefficients], [ResponseList], [FIR],
    [Polynomial]) are never read. *)
Record BaseFilter := {
  filter_input_units : option Units;
  filter_output_units : option Units }.

Record PolesZeros := {
  pz_base : BaseFilter;
  pz_transfer_function_type : string;
  normalization_factor : float;
  normalization_frequency : float;
  zero_list : list PoleZero;
  pole_list : list PoleZero }.

Record ResponseStage := {
  number : Z;
  poles_zeros_list : list PolesZeros;
  coefficients_list : list BaseFilter;
  response_list : option BaseFilter;
  fir : option BaseFilter;
  polynomial : option BaseFilter;
  stage_gain : option Gain }.

Record Response := {
  instrument_sensitivity : option Sensitivity;
  instrument_polynomial : option BaseFilter;
  stage_list : list ResponseStage }.

(** [BaseNode]: what [Network], [Station] and [Channel] derive from.
    Timestamps are floats. *)
Record BaseNode := {
  code : string;
  start_date : option float;
  end_date : option float }.

Record Channel := {
  channel_node : BaseNode;
  location_code : string;
  latitude : float;
  longitude : float;
  elevation : option float;
  depth : option float;
  azimuth : option float;
  dip : option float;
  sample_rate : option float;
  response : option Response }.

Record Station := {
  station_node : BaseNode;
  station_latitude : float;
  station_longitude : float;
  station_elevation : option float;
  station_description : option string;
  channel_list : list Channel }.

Record Network := {
  network_node : BaseNode;
  station_list : list Station }.

Record FDSNStationXML := {
  network_list : list Network }.

(** Inheritance from [BaseNode]. *)
Class Node (A : Type) := node : A → BaseNode.
#[export] Instance BaseNode_node : Node BaseNode := id.
#[export] Instance Channel_node : Node Channel := channel_node.
#[export] Instance Station_node : Node Station := station_node.
#[export] Instance Network_node : Node Network := network_node.

(** ** [BaseNode.spans] *)

(** [spans(self, *args)].  The result is [None] where the Python function
    falls off its end, with more than two arguments. *)
Definition spans `{Node A} (self : A) (args : list float) : option bool :=
  let self := node self in
  match args with
  | [] => Some true
  | [t] =>
      Some ((match start_date self with None => true | Some s => F.leb s t end)
            && (match end_date self with None => true | Some e => F.leb t e end))
  | [a; b] =>
      Some ((match start_date self with None => true | Some s => F.geb b s end)
            && (match end_date self with None => true | Some e => F.geb e a end))
  | _ => None
  end.

(** Truth value of what [spans] returns: [None] is false. *)
Definition truthy (r : option bool) : bool := default false r.

(** [tt]: the arguments [spans] is called with, from [time] and
    [timespan]. *)
Definition time_args (time : option float) (timespan : option (float * float))
  : list float :=
  match time, timespan with
  | Some t, _ => [t]
  | None, Some (a, b) => [a; b]
  | None, None => []
  end.

(** ** Transfer function terms *)

(** Complex numbers, as pairs of floats. *)
Record complex := Complex { re : float; im : float }.

(** [self.real.value + 1J * self.imaginary.value]: the float is promoted
    to a complex number with imaginary part [0.0] before each operation. *)
Definition complex_mul (a b : complex) : complex :=
  Complex (F.sub (F.mul (re a) (re b)) (F.mul (im a) (im b)))
          (F.add (F.mul (re a) (im b)) (F.mul (im a) (re b))).
Definition complex_add (a b : complex) : complex :=
  Complex (F.add (re a) (re b)) (F.add (im a) (im b)).
Definition complex_of_float (x : float) : complex := Complex x F.zero.
Definition imaginary_unit : complex := Complex F.zero F.one.

Definition PoleZero_value (self : PoleZero) : complex :=
  complex_add (complex_of_float (real self))
              (complex_mul imaginary_unit (complex_of_float (imaginary self))).

(** The response objects of [pyrocko.trace] that this module builds.  Only
    their constructors are used here: [PoleZeroResponse(zeros, poles,
    constant)], [IntegrationResponse(n)], [DifferentiationResponse(n)] and
    [MultiplyResponse(responses)]. *)
#[warnings="-register-all"]
Inductive FrequencyResponse : Type :=
| PoleZeroResponse (zeros poles : list complex) (constant : option float)
| IntegrationResponse (n : Z)
| DifferentiationResponse (n : Z)
| MultiplyResponse (responses : list FrequencyResponse).

(** [conversion]: keyed by (requested input unit, documented input unit). *)
Definition conversion_items
  : list (string * string * option FrequencyResponse) :=
  [ (("M", "M"), None);
    (("M/S", "M"), Some (IntegrationResponse 1));
    (("M/S**2", "M"), Some (IntegrationResponse 2));
    (("M", "M/S"), Some (DifferentiationResponse 1));
    (("M/S", "M/S"), None);
    (("M/S**2", "M/S"), Some (IntegrationResponse 1));
    (("M", "M/S**2"), Some (DifferentiationResponse 2));
    (("M/S", "M/S**2"), Some (DifferentiationResponse 1));
    (("M/S**2", "M/S**2"), None) ].

Definition conversion : gmap (string * string) (option FrequencyResponse) :=
  list_to_map conversion_items.

(** ** The log *)

Definition NSL : Type := string * string * string.
Definition NSLC : Type := string * string * string * string.

(** [Channel.position_values]: latitude, longitude, elevation, depth. *)
Definition Position : Type :=
  float * float * option float * option float.

(** What [logger.warn] is called with, one constructor per call site; the
    text of a message is a rendering of the constructor's arguments. *)
Inductive warning : Type :=
| NormalizationFactorsDiffer (perc computed reported : float)
| MultiplePolesZerosRecords (nslc : NSLC)
| PolesZerosRecord (pz : PolesZeros)
| InconsistentSamplingRates (nsl : NSL) (codes : list string)
    (rates : list float)
| InconsistentLocations (nsl : NSL) (info : list (string * Position))
| UsingMeanValues.

(** ['%s.%s.%s.%s' % nslc] *)
Definition format_nslc (nslc : NSLC) : string :=
  let '(net, sta, loc, cha) := nslc in
  net +:+ "." +:+ sta +:+ "." +:+ loc +:+ "." +:+ cha.

Definition laplace_radians : string := "LAPLACE (RADIANS/SECOND)".

(** ** Iteration over the inventory *)

(** [FDSNStationXML.iter_network_station_channels], as the list of what
    the generator yields. *)
Definition skip_by_code `{Node A} (wanted : option string) (x : A) : bool :=
  match wanted with
  | Some c => bool_decide (code (node x) ≠ c)
  | None => false
  end.

Definition iter_network_station_channels (self : FDSNStationXML)
    (net sta loc cha : option string)
    (time : option float) (timespan : option (float * float))
  : list (Network * Station * Channel) :=
  let loc := strip <$> loc in
  let tt := time_args time timespan in
  network ← network_list self;
  if negb (truthy (spans network tt)) || skip_by_code net network then []
  else
    station ← station_list network;
    if negb (truthy (spans station tt)) || skip_by_code sta station then []
    else
      channel ← channel_list station;
      if negb (truthy (spans channel tt))
         || skip_by_code cha channel
         || match loc with
            | Some l => bool_decide (strip (location_code channel) ≠ l)
            | None => false
            end
      then []
      else [(network, station, channel)].

(** ** Response assembly *)

Section ResponseAssembly.

(** [abs(resp.evaluate(num.array([f]))[0])]: the magnitude of a response
    of [pyrocko.trace] at frequency [f]. *)
Variable magnitude : FrequencyResponse → float → float.

(** [PolesZeros.get_pyrocko_response] *)
Definition computed_normalization_factor (self : PolesZeros)
    (resp : FrequencyResponse) : float :=
  F.div (normalization_factor self)
        (magnitude resp (normalization_frequency self)).

Definition perc (self : PolesZeros) (resp : FrequencyResponse) : float :=
  F.mul (F.abs (F.sub (F.div (computed_normalization_factor self resp)
                             (normalization_factor self))
                      F.one))
        F.hundred.

Definition PolesZeros_get_pyrocko_response (self : PolesZeros)
  : M warning FrequencyResponse :=
  if decide (pz_transfer_function_type self ≠ laplace_radians) then
    raise (NoResponseInformation
             ("cannot convert PoleZero response of type "
                +:+ pz_transfer_function_type self))
  else
    let resp :=
      PoleZeroResponse (PoleZero_value <$> zero_list self)
                       (PoleZero_value <$> pole_list self)
                       (Some (normalization_factor self)) in
    (if F.gtb (perc self resp) F.two then
       warn (NormalizationFactorsDiffer
               (perc self resp)
               (computed_normalization_factor self resp)
               (normalization_factor self))
     else mret tt) ;;
    mret resp.

(** [ResponseStage.get_pyrocko_response]: the list of terms of one
    stage.  The branch for coefficients, response list, FIR and
    polynomial does nothing. *)
Definition stage_gain_terms (self : ResponseStage)
  : list FrequencyResponse :=
  match stage_gain self with
  | Some g => [PoleZeroResponse [] [] (gain_value g)]
  | None => []
  end.

Definition ResponseStage_get_pyrocko_response (self : ResponseStage)
    (nslc : NSLC) : M warning (list FrequencyResponse) :=
  responses ←
    match poles_zeros_list self with
    | [pz] => r ← PolesZeros_get_pyrocko_response pz; mret [r]
    | _ :: _ :: _ =>
        warn (MultiplePolesZerosRecords nslc) ;;
        mapM (λ pz, warn (PolesZerosRecord pz)) (poles_zeros_list self) ;;
        mret []
    | [] => mret []
    end;
  mret (responses ++ stage_gain_terms self).

(** The loop over the stages of [Response.get_pyrocko_response]: the terms
    of each stage, in order. *)
Definition stage_terms_of (self : Response) (nslc : NSLC)
  : M warning (list (list FrequencyResponse)) :=
  mapM (λ stage, ResponseStage_get_pyrocko_response stage nslc)
       (stage_list self).

(** [Response.get_pyrocko_response] *)
Definition Response_get_pyrocko_response (self : Response) (nslc : NSLC)
    (fake_input_units : option string) : M warning FrequencyResponse :=
  per_stage ← stage_terms_of self nslc;
  let responses := concat per_stage in
  match fake_input_units with
  | Some fake =>
      match instrument_sensitivity self with
      | None => raise AttributeError
      | Some sens =>
          match sens_input_units sens with
          | None => raise (NoResponseInformation "no input units given")
          | Some units =>
              let input_units := units_name units in
              match conversion !! (fake, input_units) with
              | None =>
                  raise (NoResponseInformation
                           ("cannot convert between units: "
                              +:+ fake +:+ ", " +:+ input_units))
              | Some None => mret (MultiplyResponse responses)
              | Some (Some conresp) =>
                  mret (MultiplyResponse (responses ++ [conresp]))
              end
          end
      end
  | None => mret (MultiplyResponse responses)
  end.

(** The responses [FDSNStationXML.get_pyrocko_response] converts: those
    of the channels the iteration yields, in order. *)
Definition matching_responses (self : FDSNStationXML) (nslc : NSLC)
    (time : option float) (timespan : option (float * float))
  : list Response :=
  let '(net, sta, loc, cha) := nslc in
  omap (λ nsc, response nsc.2)
       (iter_network_station_channels
          self (Some net) (Some sta) (Some loc) (Some cha) time timespan).

(** [FDSNStationXML.get_pyrocko_response] *)
Definition get_pyrocko_response (self : FDSNStationXML) (nslc : NSLC)
    (time : option float) (timespan : option (float * float))
    (fake_input_units : option string) : M warning FrequencyResponse :=
  resps ←
    mapM (λ resp, Response_get_pyrocko_response resp nslc fake_input_units)
         (matching_responses self nslc time timespan);
  match resps with
  | [] => raise (NoResponseInformation (format_nslc nslc))
  | [resp] => mret resp
  | _ :: _ :: _ => raise (MultipleResponseInformation (format_nslc nslc))
  end.

End ResponseAssembly.

(** ** [same] *)

(** The values [same] tells apart by type. *)
Inductive pyval : Type :=
| PyInt (z : Z)
| PyFloat (f : float).

(** [type(a) != type(b)] *)
Definition type_differs (a b : pyval) : bool :=
  match a, b with
  | PyInt _, PyInt _ | PyFloat _, PyFloat _ => false
  | _, _ => true
  end.

Definition to_float (v : pyval) : float :=
  match v with
  | PyInt z => F.of_Z z
  | PyFloat f => f
  end.

(** [a == b] on numbers; on two integers and on two floats, which is all
    [same] compares once the types are known to agree. *)
Definition pyval_eqb (a b : pyval) : bool :=
  match a, b with
  | PyInt x, PyInt y => Z.eqb x y
  | _, _ => F.eqb (to_float a) (to_float b)
  end.

(** [same(x, eps)].  [x[0]] on the empty list raises [IndexError]. *)
Definition same (x : list pyval) (eps : float) : result bool :=
  match x with
  | [] => Raise IndexError
  | x0 :: _ =>
      if existsb (λ r, type_differs x0 r) x then Ok false
      else
        match x0 with
        | PyFloat _ =>
            Ok (forallb
                  (λ r, F.leb (F.abs (F.sub (to_float r) (to_float x0))) eps)
                  x)
        | PyInt _ => Ok (forallb (λ r, pyval_eqb r x0) x)
        end
  end.

(** ** [FDSNStationXML.get_channel_groups] *)

(** A bucket key: band and instrument code, and the input unit or
    [None]. *)
Definition BIC : Type := string * option string.

Abbreviation Buckets := (gmap BIC (list Channel)).
Abbreviation Groups := (gmap NSL (gmap BIC (list Channel))).

Definition lift {A} (r : result A) : M warning A := ([], r).

Section Grouping.

(** The band and instrument code of a channel code. *)
Definition band_instrument_code (cha : string) : string :=
  if decide (len cha = 3%nat) then prefix2 cha
  else if decide (len cha = 1%nat) then ""
  else cha.

(** The unit of a channel: its response's sensitivity's input unit's
    name, [None] without a response or without a sensitivity. *)
Definition channel_unit (channel : Channel) : M warning (option string) :=
  match response channel with
  | Some resp =>
      match instrument_sensitivity resp with
      | Some sens =>
          units ← attr (sens_input_units sens);
          mret (Some (units_name units))
      | None => mret None
      end
  | None => mret None
  end.

(** The body of the first loop. *)
Definition add_channel (groups : Groups)
    (nsc : Network * Station * Channel) : M warning Groups :=
  let '(network, station, channel) := nsc in
  let net := code (node network) in
  let sta := code (node station) in
  let cha := code (node channel) in
  let loc := strip (location_code channel) in
  let bic := band_instrument_code cha in
  unit ← channel_unit channel;
  let bic : BIC := (bic, unit) in
  let k : NSL := (net, sta, loc) in
  let bic_to_channels := default ∅ (groups !! k) in
  let channels := default [] (bic_to_channels !! bic) in
  mret (<[k := <[bic := channels ++ [channel]]> bic_to_channels]> groups).

(** The body of the inner loop of the second pass: the bucket's key when
    its sample rates are not the same. *)
Definition check_bucket (nsl : NSL) (item : BIC * list Channel)
  : M warning (option BIC) :=
  let '(bic, channels) := item in
  sample_rates ← mapM (λ channel, attr (sample_rate channel)) channels;
  ok ← lift (same (PyFloat <$> sample_rates) F.zero);
  if negb ok then
    warn (InconsistentSamplingRates
            nsl (code ∘ node <$> channels) sample_rates) ;;
    mret (Some bic)
  else mret None.

(** The body of the outer loop of the second pass: the buckets of one
    scope without the bad ones. *)
Definition prune_buckets (item : NSL * Buckets) : M warning (NSL * Buckets) :=
  let '(nsl, bic_to_channels) := item in
  bad_bics ← mapM (check_bucket nsl) (map_to_list bic_to_channels);
  mret (nsl, foldl (λ m bic, delete bic m) bic_to_channels
                   (omap id bad_bics)).

(** The first loop: every channel the iteration yields is appended to its
    bucket. *)
Definition group_channels (self : FDSNStationXML)
    (net sta loc cha : option string)
    (time : option float) (timespan : option (float * float))
  : M warning Groups :=
  foldM add_channel ∅
    (iter_network_station_channels self net sta loc cha time timespan).

Definition get_channel_groups (self : FDSNStationXML)
    (net sta loc cha : option string)
    (time : option float) (timespan : option (float * float))
  : M warning Groups :=
  groups ← group_channels self net sta loc cha time timespan;
  pruned ← mapM prune_buckets (map_to_list groups);
  mret (list_to_map pruned).

End Grouping.

(** ** Python's ordering of the values a ranking key is made of *)

(** [==] and [<] of a type of Python values. *)
Class PyOrd (A : Type) := {
  py_eq : A → A → bool;
  py_lt : A → A → bool }.

#[export] Instance Z_PyOrd : PyOrd Z := {| py_eq := Z.eqb; py_lt := Z.ltb |}.
#[export] Instance nat_PyOrd : PyOrd nat :=
  {| py_eq := Nat.eqb; py_lt := Nat.ltb |}.
#[export] Instance float_PyOrd : PyOrd float :=
  {| py_eq := F.eqb; py_lt := F.ltb |}.
(** Byte strings compare lexicographically by character code. *)
#[export] Instance string_PyOrd : PyOrd string :=
  {| py_eq := String.eqb; py_lt := String.ltb |}.
(** [None] or a value: in Python 2 [None] is smaller than anything else. *)
#[export] Instance option_PyOrd `{PyOrd A} : PyOrd (option A) := {|
  py_eq a b :=
    match a, b with
    | None, None => true
    | Some x, Some y => py_eq x y
    | _, _ => false
    end;
  py_lt a b :=
    match a, b with
    | None, Some _ => true
    | Some x, Some y => py_lt x y
    | _, _ => false
    end |}.
(** Tuples: equal when all items are; otherwise ordered by the first pair
    of items that differ.  A tuple [(a, b, c)] is the pair [((a, b), c)]. *)
#[export] Instance prod_PyOrd `{PyOrd A, PyOrd B} : PyOrd (A * B) := {|
  py_eq a b := py_eq a.1 b.1 && py_eq a.2 b.2;
  py_lt a b := if py_eq a.1 b.1 then py_lt a.2 b.2 else py_lt a.1 b.1 |}.

(** [list.sort()]: a stable sort that compares with [<] only.  On keys
    that [<] orders totally the result does not depend on the algorithm;
    this is insertion of each item in turn after the items not greater. *)
Fixpoint insert_sorted `{PyOrd A} (x : A) (l : list A) : list A :=
  match l with
  | [] => [x]
  | y :: l' => if py_lt x y then x :: l else y :: insert_sorted x l'
  end.

Definition list_sort `{PyOrd A} (l : list A) : list A :=
  foldl (λ acc x, insert_sorted x acc) [] l.

(** ** [FDSNStationXML.choose_channels] *)

(** The tuples of [useful_bics]. *)
Definition RankKey : Type := Z * nat * float * nat * nat * BIC.

Definition default_priority_band_code : list string :=
  ["H"; "B"; "M"; "L"; "V"; "E"; "S"].
Definition default_priority_units : list string := ["M/S"; "M/S**2"].
Definition default_priority_instrument_code : list string := ["H"; "L"].

Section Selection.

(** [sorted(channels)] on a list of [Channel] objects: an order on the
    objects that the module does not define. *)
Variable sorted_channels : list Channel → list Channel.

Variable target_sample_rate : option float.
Variable priority_band_code : list string.
Variable priority_units : list string.
Variable priority_instrument_code : list string.

(** [target_sample_rate is not None and
     rate < target_sample_rate*0.99999] *)
Definition below_target (rate : float) : bool :=
  match target_sample_rate with
  | Some target => F.ltb rate (F.mul target F.c0_99999)
  | None => false
  end.

(** [l.index(x)] with the length of [l] where it raises [ValueError]. *)
Definition priority (l : list string) (x : option string) : nat :=
  default (length l) (x ≫= λ x, index x l).

(** The body of the loop over the buckets of a scope: the bucket's tuple
    for [useful_bics], or [None] where the loop continues. *)
Definition rank_bucket (item : BIC * list Channel)
  : M warning (option RankKey) :=
  let '(bic, channels) := item in
  channel0 ← lift (match channels with
                   | c :: _ => Ok c
                   | [] => Raise IndexError
                   end);
  rate ← attr (sample_rate channel0);
  if below_target rate then mret None
  else
    let unit := bic.2 in
    let prio_unit := priority priority_units unit in
    let code0 := code (node channel0) in
    let prio_inst :=
      if decide (len code0 = 3%nat)
      then priority priority_instrument_code (char_at 1 code0)
      else length priority_instrument_code in
    let prio_band :=
      if decide (len code0 = 3%nat)
      then priority priority_band_code (char_at 0 code0)
      else length priority_band_code in
    let rate :=
      match target_sample_rate with
      | None => F.opp rate
      | Some _ => rate
      end in
    mret (Some (- Z.of_nat (length channels), prio_band, rate, prio_unit,
                prio_inst, bic)).

(** [nslcs[nsl + (channel.code,)] = channel] for each channel. *)
Definition enter_channels (nsl : NSL) (channels : list Channel)
    (nslcs : gmap NSLC Channel) : gmap NSLC Channel :=
  foldl (λ m channel, <[(nsl, code (node channel)) := channel]> m)
        nslcs channels.

(** The loop over the sorted tuples: the channels of the first bucket
    that is not empty are entered. *)
Fixpoint enter_first (nsl : NSL) (bic_to_channels : Buckets)
    (useful_bics : list RankKey) (nslcs : gmap NSLC Channel)
  : M warning (gmap NSLC Channel) :=
  match useful_bics with
  | [] => mret nslcs
  | (_, bic) :: rest =>
      channels ← lift (match bic_to_channels !! bic with
                       | Some channels => Ok (sorted_channels channels)
                       | None => Raise KeyError
                       end);
      match channels with
      | _ :: _ => mret (enter_channels nsl channels nslcs)
      | [] => enter_first nsl bic_to_channels rest nslcs
      end
  end.

(** The body of the loop over the scopes. *)
Definition choose_in_scope (nslcs : gmap NSLC Channel)
    (item : NSL * Buckets) : M warning (gmap NSLC Channel) :=
  let '(nsl, bic_to_channels) := item in
  ranked ← mapM rank_bucket (map_to_list bic_to_channels);
  let useful_bics := list_sort (omap id ranked) in
  enter_first nsl bic_to_channels useful_bics nslcs.

Definition choose_channels (self : FDSNStationXML)
    (time : option float) (timespan : option (float * float))
  : M warning (gmap NSLC Channel) :=
  groups ← get_channel_groups self None None None None time timespan;
  foldM choose_in_scope ∅ (map_to_list groups).

End Selection.

(** ** [pyrocko_station_from_channels] *)

(** [pyrocko.model.Channel] and [pyrocko.model.Station], as the
    constructor calls fill them. *)
Record PyrockoChannel := {
  pc_name : string;
  pc_azimuth : option float;
  pc_dip : option float }.

Record PyrockoStation := {
  ps_nsl : NSL;
  ps_lat : float;
  ps_lon : float;
  ps_elevation : float;
  ps_depth : float;
  ps_channels : list PyrockoChannel }.

Definition position_values (self : Channel) : Position :=
  (latitude self, longitude self, elevation self, depth self).

(** A row of [num.array(..., dtype=num.float)]: [None] becomes NaN. *)
Definition array_row (pos : Position) : list float :=
  let '(lat, lon, elevation, depth) := pos in
  [lat; lon; default F.nan elevation; default F.nan depth].

(** [num.sum] along the rows: the items are added in order, starting from
    the first one. *)
Definition np_sum (column : list float) : float :=
  match column with
  | [] => F.zero
  | x :: rest => foldl F.add x rest
  end.

(** [num.nansum]: the sum with each NaN replaced by zero. *)
Definition np_nansum (column : list float) : float :=
  np_sum ((λ x, if F.is_nan x then F.zero else x) <$> column).

(** [num.sum(num.isfinite(column))] *)
Definition count_finite (column : list float) : Z :=
  Z.of_nat (length (filter (λ x, F.is_finite x = true) column)).

(** One item of [num.nansum(apos, axis=0) / num.sum(num.isfinite(apos),
    axis=0)]. *)
Definition mean_value (column : list float) : float :=
  F.div (np_nansum column) (F.of_Z (count_finite column)).

Definition column (i : nat) (apos : list (list float)) : list float :=
  (λ row, default F.nan (row !! i)) <$> apos.

Definition pyrocko_station_from_channels (nsl : NSL)
    (channels : list Channel) (inconsistencies : string)
  : M warning PyrockoStation :=
  channel0 ← lift (match channels with
                   | c :: _ => Ok c
                   | [] => Raise IndexError
                   end);
  let pos := position_values channel0 in
  (* the items of channels[0].position_values are the very objects of
     pos, which a tuple comparison takes as equal without comparing *)
  (if negb (forallb (λ x, py_eq pos (position_values x)) (tail channels))
   then
     let info := (λ x, (code (node x), position_values x)) <$> channels in
     if decide (inconsistencies = "raise") then
       raise InconsistentChannelLocations
     else if decide (inconsistencies = "warn") then
       warn (InconsistentLocations nsl info) ;; warn UsingMeanValues
     else mret tt
   else mret tt) ;;
  let apos := array_row ∘ position_values <$> channels in
  let pchannels :=
    (λ channel, {| pc_name := code (node channel);
                   pc_azimuth := azimuth channel;
                   pc_dip := dip channel |}) <$> channels in
  mret {| ps_nsl := nsl;
          ps_lat := mean_value (column 0 apos);
          ps_lon := mean_value (column 1 apos);
          ps_elevation := mean_value (column 2 apos);
          ps_depth := mean_value (column 3 apos);
          ps_channels := pchannels |}.


(** * pyrocko.rdseed: the parser of the station summary *)

Module rdseed.

(** [(in_ws, in_kw, in_str) = (1, 2, 3)] *)
Inductive state : Type := in_ws | in_kw | in_str.

(** The local variables of [dumb_parser].  [new_state] is unbound until
    its first assignment. *)
Record locals := Locals {
  current : state;
  new_state : option state;
  rows : list (list string);
  cols : list string;
  accu : string }.

(** [c in (' ', '\t', '\n', '\r')] and [c in ('\n', '\r')] *)
Definition is_blank (c : ascii) : bool :=
  let n := N_of_ascii c in (N.eqb n 32 || N.eqb n 9 || N.eqb n 10 || N.eqb n 13)%N.
Definition is_newline (c : ascii) : bool :=
  let n := N_of_ascii c in (N.eqb n 10 || N.eqb n 13)%N.
(** [c] is the double quote character. *)
Definition is_quote (c : ascii) : bool := N.eqb (N_of_ascii c) 34.

(** [accu += c] *)
Definition add_char (accu : string) (c : ascii) : string :=
  accu +:+ String c EmptyString.

(** [accu[1:-1]] *)
Definition inner (accu : string) : string :=
  substring 1 (String.length accu - 2) accu.

(** The three tests on [state], which the body does not assign before the
    last of them: the rows, the columns, the accumulator and [new_state]
    after them. *)
Definition branch (v : locals) (c : ascii)
  : list (list string) * list string * string * option state :=
  match current v with
  | in_ws =>
      (rows v, cols v, accu v,
       if is_quote c then Some in_str
       else if negb (is_blank c) then Some in_kw
       else new_state v)
  | in_kw =>
      if is_blank c then
        let cols' := cols v ++ [accu v] in
        if is_newline c then (rows v ++ [cols'], [], "", Some in_ws)
        else (rows v, cols', "", Some in_ws)
      else (rows v, cols v, accu v, new_state v)
  | in_str =>
      if is_quote c then
        let cols' := cols v ++ [inner (add_char (accu v) c)] in
        if is_newline c then (rows v ++ [cols'], [], "", Some in_ws)
        else (rows v, cols', "", Some in_ws)
      else (rows v, cols v, accu v, new_state v)
  end.

(** One pass through the body of the loop; [None] is the
    [UnboundLocalError] of [state = new_state]. *)
Definition step (v : locals) (c : ascii) : option locals :=
  let '(rows', cols', accu', new_state') := branch v c in
  state' ← new_state';
  Some {| current := state';
          new_state := Some state';
          rows := rows';
          cols := cols';
          accu := match state' with
                  | in_kw | in_str => add_char accu' c
                  | in_ws => accu'
                  end |}.

(** [for c in data: ...] *)
Fixpoint loop (v : locals) (data : string) : option locals :=
  match data with
  | EmptyString => Some v
  | String c data' => v' ← step v c; loop v' data'
  end.

Definition initial : locals :=
  {| current := in_ws; new_state := None; rows := []; cols := [];
     accu := "" |}.

(** [dumb_parser(data)] *)
Definition dumb_parser (data : string) : option (list (list string)) :=
  v ← loop initial data;
  Some (if decide (length (cols v) ≠ 0%nat) then rows v ++ [cols v]
        else rows v).

End rdseed.
(** * Concrete inputs *)

Module Scenario_A.
(** Seconds since 1970 of 2000-01-01, 2010-01-01, 2005-06-01 and
    2012-01-01. *)
Definition t2000 : float := Eval vm_compute in F.of_Z 946684800.
Definition t2010 : float := Eval vm_compute in F.of_Z 1262304000.
Definition t2005_06 : float := Eval vm_compute in F.of_Z 1117584000.
Definition t2012 : float := Eval vm_compute in F.of_Z 1325376000.

Definition channel : Channel := {|
  channel_node :=
    {| code := "BHZ"; start_date := Some t2000; end_date := Some t2010 |};
  location_code := "";
  latitude := F.zero; longitude := F.zero;
  elevation := None; depth := None; azimuth := None; dip := None;
  sample_rate := None; response := None |}.
End Scenario_A.

Module Scenario_C.
(** A poles and zeros stage that declares the factor 1.0 at 1.0 Hz, for a
    response whose magnitude there is 0.95. *)
#[warnings="-inexact-float"]
Definition m0_95 : float := Eval vm_compute in F.lit 0.95%float.

Definition magnitude (_ : FrequencyResponse) (_ : float) : float := m0_95.

Definition no_units : BaseFilter :=
  {| filter_input_units := None; filter_output_units := None |}.

Definition pz : PolesZeros := {|
  pz_base := no_units;
  pz_transfer_function_type := laplace_radians;
  normalization_factor := F.one;
  normalization_frequency := F.one;
  zero_list := [];
  pole_list := [] |}.
End Scenario_C.

Module Two_PolesZeros.
(** A stage with two poles and zeros records and a stage gain of 2.0. *)
Definition nslc : NSLC := ("GE", "APE", "", "BHZ").

Definition stage : ResponseStage := {|
  number := 1;
  poles_zeros_list := [Scenario_C.pz; Scenario_C.pz];
  coefficients_list := [];
  response_list := None;
  fir := None;
  polynomial := None;
  stage_gain := Some {| gain_value := Some F.two; gain_frequency := None |} |}.
End Two_PolesZeros.

Module Scenario_D.
(** A response without stages whose documented input unit is "M"; the
    requested input unit is "M/S". *)
Definition nslc : NSLC := ("GE", "APE", "", "BHZ").

Definition sensitivity (units : option Units) : Sensitivity := {|
  sens_gain := {| gain_value := Some F.one; gain_frequency := Some F.one |};
  sens_input_units := units;
  sens_output_units := None |}.

Definition resp : Response := {|
  instrument_sensitivity := Some (sensitivity (Some {| units_name := "M" |}));
  instrument_polynomial := None;
  stage_list := [] |}.

(** The same response without a sensitivity. *)
Definition resp_without_sensitivity : Response := {|
  instrument_sensitivity := None;
  instrument_polynomial := None;
  stage_list := [] |}.
End Scenario_D.

Module Two_Matches.
(** A station with two epochs of the channel "BHZ", each with a response;
    the response of the first epoch has one poles and zeros record of the
    convention "LAPLACE (HERTZ)". *)
Definition nslc : NSLC := ("GE", "APE", "", "BHZ").

Definition pz_hertz : PolesZeros := {|
  pz_base := Scenario_C.no_units;
  pz_transfer_function_type := "LAPLACE (HERTZ)";
  normalization_factor := F.one;
  normalization_frequency := F.one;
  zero_list := [];
  pole_list := [] |}.

Definition stage_hertz : ResponseStage := {|
  number := 1;
  poles_zeros_list := [pz_hertz];
  coefficients_list := [];
  response_list := None;
  fir := None;
  polynomial := None;
  stage_gain := None |}.

Definition resp_hertz : Response := {|
  instrument_sensitivity := None;
  instrument_polynomial := None;
  stage_list := [stage_hertz] |}.

Definition epoch (resp : Response) : Channel := {|
  channel_node := {| code := "BHZ"; start_date := None; end_date := None |};
  location_code := "";
  latitude := F.zero; longitude := F.zero;
  elevation := None; depth := None; azimuth := None; dip := None;
  sample_rate := Some F.hundred;
  response := Some resp |}.

Definition station : Station := {|
  station_node := {| code := "APE"; start_date := None; end_date := None |};
  station_latitude := F.zero;
  station_longitude := F.zero;
  station_elevation := None;
  station_description := None;
  channel_list := [epoch resp_hertz; epoch Scenario_D.resp] |}.

Definition inventory : FDSNStationXML := {|
  network_list :=
    [ {| network_node :=
           {| code := "GE"; start_date := None; end_date := None |};
         station_list := [station] |} ] |}.
End Two_Matches.

Module Scenario_E.
(** A station with the channels BHZ, BHN and BHE at 100.0, 100.0 and 50.0
    samples per second and the channel LHZ at 1.0; no channel has a
    response. *)
Definition r50 : float := Eval vm_compute in F.of_Z 50.

Definition channel (cha : string) (rate : float) : Channel := {|
  channel_node := {| code := cha; start_date := None; end_date := None |};
  location_code := "";
  latitude := F.zero; longitude := F.zero;
  elevation := None; depth := None; azimuth := None; dip := None;
  sample_rate := Some rate;
  response := None |}.

Definition bhz : Channel := channel "BHZ" F.hundred.
Definition bhn : Channel := channel "BHN" F.hundred.
Definition bhe : Channel := channel "BHE" r50.
Definition lhz : Channel := channel "LHZ" F.one.

Definition nsl : NSL := ("GE", "APE", "").

Definition station : Station := {|
  station_node := {| code := "APE"; start_date := None; end_date := None |};
  station_latitude := F.zero;
  station_longitude := F.zero;
  station_elevation := None;
  station_description := None;
  channel_list := [bhz; bhn; bhe; lhz] |}.

Definition network : Network := {|
  network_node := {| code := "GE"; start_date := None; end_date := None |};
  station_list := [station] |}.

Definition inventory : FDSNStationXML := {| network_list := [network] |}.

(** What [get_channel_groups] returns for the inventory. *)
Definition groups : Groups :=
  {[ nsl := {[ ("LH", None) := [lhz] ]} ]}.
End Scenario_E.

Module Infinite_Depth.
(** Two channels of one sensor that agree on latitude, longitude and
    elevation; the depth of the first is infinite, that of the second is
    10.0. *)
Definition ten : float := Eval vm_compute in F.of_Z 10.

Definition channel (cha : string) (dep : float) : Channel := {|
  channel_node := {| code := cha; start_date := None; end_date := None |};
  location_code := "";
  latitude := F.one; longitude := F.two;
  elevation := Some F.hundred; depth := Some dep;
  azimuth := None; dip := None;
  sample_rate := Some F.hundred;
  response := None |}.

Definition channels : list Channel :=
  [channel "BHZ" F.infinity; channel "BHN" ten].

Definition nsl : NSL := ("GE", "APE", "").
End Infinite_Depth.


Module Scenario_B.
(** A station with the channels HHZ at 1.0 and LHZ at 100.0 samples per
    second at one location; no channel has a response. *)
Definition hhz : Channel := Scenario_E.channel "HHZ" F.one.
Definition lhz : Channel := Scenario_E.channel "LHZ" F.hundred.

Definition nsl : NSL := ("GE", "APE", "").

Definition station : Station := {|
  station_node := {| code := "APE"; start_date := None; end_date := None |};
  station_latitude := F.zero;
  station_longitude := F.zero;
  station_elevation := None;
  station_description := None;
  channel_list := [lhz; hhz] |}.

Definition network : Network := {|
  network_node := {| code := "GE"; start_date := None; end_date := None |};
  station_list := [station] |}.

Definition inventory : FDSNStationXML := {| network_list := [network] |}.

(** What [get_channel_groups] returns for the inventory. *)
Definition groups : Groups :=
  {[ nsl := {[ ("HH", None) := [hhz]; ("LH", None) := [lhz] ]} ]}.
End Scenario_B.
(** * Properties *)

(** Closes an equation between closed terms by evaluating both sides. *)
Ltac by_evaluation :=
  lazymatch goal with
  | |- _ = ?rhs => vm_cast_no_check (eq_refl rhs)
  end.

(** ** The monad *)

Section MonadFacts.
Context {W : Type}.

Lemma outcome_bind {A B} (m : M W A) (k : A → M W B) :
  outcome (m ≫= k)
  = match outcome m with Ok a => outcome (k a) | Raise e => Raise e end.
Proof. destruct m as [log [a|e]]; [|done]. simpl. by destruct (k a). Qed.

Lemma log_bind {A B} (m : M W A) (k : A → M W B) :
  log_of (m ≫= k)
  = log_of m ++ match outcome m with Ok a => log_of (k a) | Raise e => [] end.
Proof.
  destruct m as [log [a|e]]; simpl; [by destruct (k a)|].
  by rewrite app_nil_r.
Qed.

Lemma outcome_bind_Ok {A B} (m : M W A) (k : A → M W B) b :
  outcome (m ≫= k) = Ok b ↔ ∃ a, outcome m = Ok a ∧ outcome (k a) = Ok b.
Proof.
  rewrite outcome_bind. destruct (outcome m) as [a|e]; split.
  - intros Hk. by exists a.
  - by intros (a' & [= <-] & ?).
  - done.
  - by intros (? & [=] & ?).
Qed.

Lemma outcome_bind_Raise {A B} (m : M W A) (k : A → M W B) e :
  outcome (m ≫= k) = Raise e
  ↔ outcome m = Raise e ∨ ∃ a, outcome m = Ok a ∧ outcome (k a) = Raise e.
Proof.
  rewrite outcome_bind. destruct (outcome m) as [a|e']; split.
  - intros Hk. right. by exists a.
  - by intros [[=]|(a' & [= <-] & ?)].
  - intros [= ->]. by left.
  - by intros [[= ->]|(? & [=] & ?)].
Qed.

Lemma outcome_ret {A} (a : A) : outcome (mret a : M W A) = Ok a.
Proof. done. Qed.

Lemma mapM_cons {A B} (f : A → M W B) x xs :
  mapM f (x :: xs) = (y ← f x; ys ← mapM f xs; mret (y :: ys)).
Proof. done. Qed.

Lemma mapM_Ok {A B} (f : A → M W B) xs ys :
  outcome (mapM f xs) = Ok ys ↔ Forall2 (λ x y, outcome (f x) = Ok y) xs ys.
Proof.
  revert ys. induction xs as [|x xs IH]; intros ys; simpl.
  - split.
    + intros [= <-]. constructor.
    + by inversion 1.
  - rewrite outcome_bind_Ok. split.
    + intros (y & Hy & Hrest). apply outcome_bind_Ok in Hrest
        as (ys' & Hys' & [= <-]).
      constructor; [done|]. by apply IH.
    + inversion 1 as [|? y ? ys' Hy Hys']; subst.
      exists y. split; [done|]. apply outcome_bind_Ok.
      exists ys'. split; [by apply IH|done].
Qed.

Lemma mapM_Raise {A B} (f : A → M W B) xs e :
  outcome (mapM f xs) = Raise e
  ↔ ∃ pre x post, xs = pre ++ x :: post
      ∧ Forall (λ x, ∃ y, outcome (f x) = Ok y) pre
      ∧ outcome (f x) = Raise e.
Proof.
  induction xs as [|x xs IH]; simpl.
  - split; [done|]. intros (pre & ? & ? & Heq & _). by destruct pre.
  - rewrite outcome_bind_Raise. split.
    + intros [Hx|(y & Hy & Hrest)].
      * exists [], x, xs. by repeat split.
      * apply outcome_bind_Raise in Hrest as [Hrest|(? & _ & [=])].
        apply IH in Hrest as (pre & x' & post & -> & Hpre & Hx').
        exists (x :: pre), x', post. repeat split; [|done].
        constructor; eauto.
    + intros (pre & x' & post & Heq & Hpre & Hx').
      destruct pre as [|p pre]; simplify_eq/=; [by left|].
      inversion Hpre as [|? ? [y Hy] Hpre']; subst.
      right. exists y. split; [done|].
      apply outcome_bind_Raise. left. apply IH. eauto 10.
Qed.

Lemma mapM_total {A B} (f : A → M W B) xs :
  Forall (λ x, ∃ y, outcome (f x) = Ok y) xs →
  ∃ ys, outcome (mapM f xs) = Ok ys.
Proof.
  induction 1 as [|x xs [y Hy] _ [ys IH]].
  - by eexists.
  - exists (y :: ys). apply mapM_Ok. constructor; [done|]. by apply mapM_Ok.
Qed.

End MonadFacts.


(** ** Epochs *)


Lemma unset_or_bound (bound : option float) (test : float → bool) :
  match bound with None => true | Some s => test s end = true
  ↔ bound = None ∨ ∃ s, bound = Some s ∧ test s = true.
Proof.
  destruct bound as [s|]; split; eauto.
  - intros [|(s' & [= <-] & ?)]; done.
Qed.

(** C3. For every entity (network, station or channel) with optional start
    [s] and optional end [e]: [spans] with no time argument returns true;
    at one instant [t] it returns the boolean that is true iff ([s] is unset
    or [s <= t]) and ([e] is unset or [t <= e]); over an interval [[a, b]] it
    returns the boolean that is true iff ([s] is unset or [b >= s]) and ([e]
    is unset or [e >= a]).  The channel valid from 2000-01-01 to 2010-01-01
    spans 2005-06-01 and does not span 2012-01-01. *)
Theorem spans_instant_and_overlap `{Node A} (x : A) :
  spans x [] = Some true
  ∧ (∀ t, ∃ r, spans x [t] = Some r
       ∧ (r = true ↔
            (start_date (node x) = None
             ∨ ∃ s, start_date (node x) = Some s ∧ F.leb s t = true)
            ∧ (end_date (node x) = None
               ∨ ∃ e, end_date (node x) = Some e ∧ F.leb t e = true)))
  ∧ (∀ a b, ∃ r, spans x [a; b] = Some r
       ∧ (r = true ↔
            (start_date (node x) = None
             ∨ ∃ s, start_date (node x) = Some s ∧ F.geb b s = true)
            ∧ (end_date (node x) = None
               ∨ ∃ e, end_date (node x) = Some e ∧ F.geb e a = true)))
  ∧ spans Scenario_A.channel [Scenario_A.t2005_06] = Some true
  ∧ spans Scenario_A.channel [Scenario_A.t2012] = Some false.
Proof.
  split; [done|].
  split; [|split; [|by vm_compute]].
  - intros t. eexists. split; [done|].
    by rewrite andb_true_iff, !unset_or_bound.
  - intros a b. eexists. split; [done|].
    by rewrite andb_true_iff, !unset_or_bound.
Qed.

(** ** Response stages *)

Section StageFacts.
Variable magnitude : FrequencyResponse → float → float.

Lemma PolesZeros_outcome (pz : PolesZeros) :
  outcome (PolesZeros_get_pyrocko_response magnitude pz)
  = if decide (pz_transfer_function_type pz = laplace_radians) then
      Ok (PoleZeroResponse (PoleZero_value <$> zero_list pz)
                           (PoleZero_value <$> pole_list pz)
                           (Some (normalization_factor pz)))
    else
      Raise (NoResponseInformation
               ("cannot convert PoleZero response of type "
                  +:+ pz_transfer_function_type pz)).
Proof.
  unfold PolesZeros_get_pyrocko_response.
  destruct (decide (pz_transfer_function_type pz = _)) as [Heq|Hne].
  - rewrite decide_False by (by intros []).
    rewrite outcome_bind. by destruct (F.gtb _ _).
  - by rewrite decide_True.
Qed.

Lemma PolesZeros_log (pz : PolesZeros) :
  pz_transfer_function_type pz = laplace_radians →
  let resp := PoleZeroResponse (PoleZero_value <$> zero_list pz)
                               (PoleZero_value <$> pole_list pz)
                               (Some (normalization_factor pz)) in
  log_of (PolesZeros_get_pyrocko_response magnitude pz)
  = if F.gtb (perc magnitude pz resp) F.two then
      [NormalizationFactorsDiffer
         (perc magnitude pz resp)
         (computed_normalization_factor magnitude pz resp)
         (normalization_factor pz)]
    else [].
Proof.
  intros Heq resp. unfold PolesZeros_get_pyrocko_response.
  rewrite decide_False by (by intros []).
  rewrite log_bind. fold resp. by destruct (F.gtb _ _).
Qed.

Lemma warn_each_outcome (pzs : list PolesZeros) :
  ∃ units, outcome (mapM (λ pz, warn (PolesZerosRecord pz)) pzs) = Ok units.
Proof. apply mapM_total, Forall_forall. intros pz _. by exists (). Qed.

Lemma warn_each_log (pzs : list PolesZeros) :
  log_of (mapM (λ pz, warn (PolesZerosRecord pz)) pzs)
  = PolesZerosRecord <$> pzs.
Proof.
  induction pzs as [|pz pzs IH]; [done|].
  rewrite mapM_cons, log_bind. simpl. rewrite log_bind, IH.
  destruct (warn_each_outcome pzs) as [us ->]. simpl. by rewrite app_nil_r.
Qed.

End StageFacts.

(** C7. For every poles and zeros stage of the Laplace (radians/second)
    convention, the conversion returns the pole-zero response built with
    the declared normalization factor; the factor is recomputed as the
    declared one divided by the magnitude of that response at the declared
    normalization frequency, and a diagnostic is emitted exactly when
    [|computed/declared - 1| * 100 > 2.0].  With the declared factor 1.0
    and the magnitude 0.95 the diagnostic is emitted and the returned
    response still carries the factor 1.0. *)
Theorem declared_factor_is_kept_and_mismatch_reported :
  (∀ magnitude pz,
     pz_transfer_function_type pz = laplace_radians →
     let declared := normalization_factor pz in
     let resp := PoleZeroResponse (PoleZero_value <$> zero_list pz)
                                  (PoleZero_value <$> pole_list pz)
                                  (Some declared) in
     let computed :=
       F.div declared (magnitude resp (normalization_frequency pz)) in
     let percent :=
       F.mul (F.abs (F.sub (F.div computed declared) F.one)) F.hundred in
     outcome (PolesZeros_get_pyrocko_response magnitude pz) = Ok resp
     ∧ log_of (PolesZeros_get_pyrocko_response magnitude pz)
       = if F.gtb percent F.two
         then [NormalizationFactorsDiffer percent computed declared]
         else [])
  ∧ (∃ percent computed,
       log_of (PolesZeros_get_pyrocko_response
                 Scenario_C.magnitude Scenario_C.pz)
       = [NormalizationFactorsDiffer percent computed F.one]
       ∧ F.gtb percent F.two = true
       ∧ outcome (PolesZeros_get_pyrocko_response
                    Scenario_C.magnitude Scenario_C.pz)
         = Ok (PoleZeroResponse [] [] (Some F.one))).
Proof.
  split.
  - intros magnitude pz Heq declared resp computed percent. split.
    + rewrite PolesZeros_outcome. by rewrite decide_True.
    + by rewrite PolesZeros_log.
  - do 2 eexists. by vm_compute.
Qed.

(** The conversion of a stage with two poles and zeros records and a stage
    gain returns the gain term: the stage is not without a term. *)
Lemma stage_with_two_records_keeps_its_gain :
  length (poles_zeros_list Two_PolesZeros.stage) = 2%nat
  ∧ outcome (ResponseStage_get_pyrocko_response
               Scenario_C.magnitude Two_PolesZeros.stage Two_PolesZeros.nslc)
    = Ok [PoleZeroResponse [] [] (Some F.two)].
Proof. by vm_compute. Qed.

(** C8, amended. Converting a stage with more than one poles and zeros
    record raises no exception, emits one diagnostic for the stage and one
    per record, and contributes no pole-zero term: its terms are the
    constant-gain term when a stage gain is declared, and none otherwise.
    A stage with exactly one record of the Laplace (radians/second)
    convention contributes that pole-zero term, followed by the
    constant-gain term when a stage gain is declared; with one record of
    another convention the conversion raises the no-response error.  A
    stage without a poles and zeros record contributes the constant-gain
    term when a stage gain is declared, and nothing otherwise.  So a stage
    with a declared gain contributes a constant-gain term, as its last
    term, whenever its conversion returns, and a stage without a declared
    gain contributes none. *)
Theorem stage_terms magnitude (stage : ResponseStage) (nslc : NSLC) :
  let convert := ResponseStage_get_pyrocko_response magnitude stage nslc in
  let gain_terms :=
    match stage_gain stage with
    | Some gain => [PoleZeroResponse [] [] (gain_value gain)]
    | None => []
    end in
  ((2 ≤ length (poles_zeros_list stage))%nat →
     outcome convert = Ok gain_terms
     ∧ log_of convert
       = MultiplePolesZerosRecords nslc
           :: (PolesZerosRecord <$> poles_zeros_list stage))
  ∧ (∀ pz,
       poles_zeros_list stage = [pz] →
       pz_transfer_function_type pz = laplace_radians →
       outcome convert
       = Ok (PoleZeroResponse (PoleZero_value <$> zero_list pz)
                              (PoleZero_value <$> pole_list pz)
                              (Some (normalization_factor pz))
               :: gain_terms))
  ∧ (∀ pz,
       poles_zeros_list stage = [pz] →
       pz_transfer_function_type pz ≠ laplace_radians →
       outcome convert
       = Raise (NoResponseInformation
                  ("cannot convert PoleZero response of type "
                     +:+ pz_transfer_function_type pz)))
  ∧ (poles_zeros_list stage = [] →
     outcome convert = Ok gain_terms ∧ log_of convert = [])
  ∧ (∀ gain terms,
       stage_gain stage = Some gain →
       outcome convert = Ok terms →
       last terms = Some (PoleZeroResponse [] [] (gain_value gain))
       ∧ (length terms ≤ 2)%nat)
  ∧ (∀ terms,
       stage_gain stage = None →
       outcome convert = Ok terms →
       terms = []
       ∨ ∃ pz, poles_zeros_list stage = [pz]
               ∧ terms = [PoleZeroResponse
                            (PoleZero_value <$> zero_list pz)
                            (PoleZero_value <$> pole_list pz)
                            (Some (normalization_factor pz))]).
Proof.
  intros convert gain_terms.
  assert (Hmany : (2 ≤ length (poles_zeros_list stage))%nat →
            outcome convert = Ok gain_terms
            ∧ log_of convert
              = MultiplePolesZerosRecords nslc
                  :: (PolesZerosRecord <$> poles_zeros_list stage)).
  { subst convert. unfold ResponseStage_get_pyrocko_response. intros Hlen.
    destruct (poles_zeros_list stage) as [|pz1 [|pz2 pzs]] eqn:Hpzs;
      simpl in Hlen; [lia..|].
    destruct (warn_each_outcome (pz1 :: pz2 :: pzs)) as [us Hus].
    split.
    - by rewrite !outcome_bind, Hus.
    - rewrite !log_bind, !outcome_bind, Hus, warn_each_log.
      simpl. by rewrite !app_nil_r. }
  assert (Hone : ∀ pz,
            poles_zeros_list stage = [pz] →
            outcome convert
            = if decide (pz_transfer_function_type pz = laplace_radians)
              then Ok (PoleZeroResponse (PoleZero_value <$> zero_list pz)
                                        (PoleZero_value <$> pole_list pz)
                                        (Some (normalization_factor pz))
                         :: gain_terms)
              else Raise (NoResponseInformation
                            ("cannot convert PoleZero response of type "
                               +:+ pz_transfer_function_type pz))).
  { subst convert. unfold ResponseStage_get_pyrocko_response.
    intros pz ->. rewrite !outcome_bind, PolesZeros_outcome.
    by case_decide. }
  assert (Hnone : poles_zeros_list stage = [] →
            outcome convert = Ok gain_terms ∧ log_of convert = []).
  { subst convert. unfold ResponseStage_get_pyrocko_response.
    intros ->. split; [by rewrite outcome_bind|by rewrite log_bind]. }
  assert (Hterms : ∀ terms, outcome convert = Ok terms →
            terms = gain_terms
            ∨ ∃ pz, poles_zeros_list stage = [pz]
                ∧ terms = PoleZeroResponse
                            (PoleZero_value <$> zero_list pz)
                            (PoleZero_value <$> pole_list pz)
                            (Some (normalization_factor pz))
                          :: gain_terms).
  { intros terms Hconvert.
    destruct (poles_zeros_list stage) as [|pz1 [|pz2 pzs]] eqn:Hpzs.
    - left. destruct (Hnone eq_refl) as [Hgain _]. congruence.
    - right. exists pz1. split; [done|].
      rewrite (Hone pz1 eq_refl) in Hconvert.
      case_decide; [congruence|done].
    - left. destruct Hmany as [Hgain _]; [simpl; lia|]. congruence. }
  split; [exact Hmany|]. split; [|split; [|split; [exact Hnone|split]]].
  - intros pz Hpz Htype. by rewrite (Hone pz Hpz), decide_True.
  - intros pz Hpz Htype. by rewrite (Hone pz Hpz), decide_False.
  - intros gain terms Hgain Hconvert. subst gain_terms.
    rewrite Hgain in Hterms.
    destruct (Hterms terms Hconvert) as [->|(pz & _ & ->)];
      (split; [done|simpl; lia]).
  - intros terms Hgain Hconvert. subst gain_terms.
    rewrite Hgain in Hterms.
    destruct (Hterms terms Hconvert) as [->|(pz & Hpz & ->)];
      [by left|right]. by exists pz.
Qed.

(** The stage with two records and a gain is one [stage_terms] speaks
    of. *)
Lemma stage_terms_witness :
  outcome (ResponseStage_get_pyrocko_response
             Scenario_C.magnitude Two_PolesZeros.stage Two_PolesZeros.nslc)
  = Ok [PoleZeroResponse [] [] (Some F.two)]
  ∧ log_of (ResponseStage_get_pyrocko_response
              Scenario_C.magnitude Two_PolesZeros.stage Two_PolesZeros.nslc)
    = [MultiplePolesZerosRecords Two_PolesZeros.nslc;
       PolesZerosRecord Scenario_C.pz; PolesZerosRecord Scenario_C.pz].
Proof.
  apply (proj1 (stage_terms Scenario_C.magnitude Two_PolesZeros.stage
                  Two_PolesZeros.nslc)).
  simpl. lia.
Defined.

(** ** Responses and the unit conversion *)

Section ResponseFacts.
Variable magnitude : FrequencyResponse → float → float.

Lemma Response_outcome resp nslc fake_input_units :
  outcome (Response_get_pyrocko_response magnitude resp nslc fake_input_units)
  = match outcome (stage_terms_of magnitude resp nslc) with
    | Raise e => Raise e
    | Ok per_stage =>
        let responses := concat per_stage in
        match fake_input_units with
        | None => Ok (MultiplyResponse responses)
        | Some fake =>
            match instrument_sensitivity resp with
            | None => Raise AttributeError
            | Some sens =>
                match sens_input_units sens with
                | None => Raise (NoResponseInformation "no input units given")
                | Some units =>
                    match conversion !! (fake, units_name units) with
                    | None =>
                        Raise (NoResponseInformation
                                 ("cannot convert between units: "
                                    +:+ fake +:+ ", " +:+ units_name units))
                    | Some None => Ok (MultiplyResponse responses)
                    | Some (Some conresp) =>
                        Ok (MultiplyResponse (responses ++ [conresp]))
                    end
                end
            end
        end
    end.
Proof.
  unfold Response_get_pyrocko_response.
  rewrite outcome_bind.
  destruct (outcome (stage_terms_of _ _ _)) as [per_stage|e]; [|done].
  destruct fake_input_units as [fake|]; [|done].
  destruct (instrument_sensitivity resp) as [sens|]; [|done].
  destruct (sens_input_units sens) as [units|]; [|done].
  by destruct (conversion !! _) as [[c|]|].
Qed.

(** What a stage can raise: the named error of a poles and zeros record
    of another convention. *)
Lemma stage_raises stage nslc e :
  outcome (ResponseStage_get_pyrocko_response magnitude stage nslc) = Raise e →
  ∃ pz, poles_zeros_list stage = [pz]
        ∧ pz_transfer_function_type pz ≠ laplace_radians
        ∧ e = NoResponseInformation
                ("cannot convert PoleZero response of type "
                   +:+ pz_transfer_function_type pz).
Proof.
  unfold ResponseStage_get_pyrocko_response. rewrite outcome_bind.
  destruct (poles_zeros_list stage) as [|pz [|pz2 pzs]]; [done| |].
  - rewrite outcome_bind, PolesZeros_outcome. case_decide; [done|].
    intros [= <-]. by exists pz.
  - destruct (warn_each_outcome (pz :: pz2 :: pzs)) as [us Hus].
    by rewrite !outcome_bind, Hus.
Qed.

Lemma stages_raise resp nslc e :
  outcome (stage_terms_of magnitude resp nslc) = Raise e →
  ∃ stage pz, stage ∈ stage_list resp
    ∧ poles_zeros_list stage = [pz]
    ∧ pz_transfer_function_type pz ≠ laplace_radians
    ∧ e = NoResponseInformation
            ("cannot convert PoleZero response of type "
               +:+ pz_transfer_function_type pz).
Proof.
  intros (pre & stage & post & Heq & _ & Hstage)%mapM_Raise.
  apply stage_raises in Hstage as (pz & ? & ? & ?).
  exists stage, pz. split; [|done].
  rewrite Heq, elem_of_app, elem_of_cons. auto.
Qed.

End ResponseFacts.

Lemma conversion_items_NoDup : NoDup conversion_items.*1.
Proof. apply (bool_decide_unpack _). by vm_compute. Qed.

Lemma conversion_lookup key entry :
  conversion !! key = Some entry ↔ (key, entry) ∈ conversion_items.
Proof.
  symmetry. apply elem_of_list_to_map, conversion_items_NoDup.
Qed.

(** The pairs (requested unit, documented unit) of equal units, and the
    pairs that need a conversion term. *)
Definition identity_pairs : list (string * string) :=
  [("M", "M"); ("M/S", "M/S"); ("M/S**2", "M/S**2")].
Definition conversion_pairs : list (string * string) :=
  [("M/S", "M"); ("M/S**2", "M"); ("M", "M/S"); ("M/S**2", "M/S");
   ("M", "M/S**2"); ("M/S", "M/S**2")].

Lemma conversion_None key :
  key ∉ identity_pairs ++ conversion_pairs → conversion !! key = None.
Proof.
  intros Hkey. destruct (conversion !! key) as [entry|] eqn:Hentry; [|done].
  destruct Hkey. apply conversion_lookup in Hentry.
  unfold conversion_items in Hentry.
  repeat (apply elem_of_cons in Hentry as [[= -> ->]|Hentry];
          [set_solver|]).
  by apply elem_of_nil in Hentry.
Qed.

(** C6. When the stages of a response convert and the response documents
    an input unit, a requested input unit makes the conversion end in one
    of three ways, by the pair (requested, documented): for [("M", "M")],
    [("M/S", "M/S")] and [("M/S**2", "M/S**2")] no term is appended; for the
    six other pairs of the table one term is appended, an integration or a
    differentiation of order 1 or 2; for any other pair the no-response
    error is raised.  For the pair [("M/S", "M")] and a response without
    stages the composite response is exactly one integration term of
    order 1. *)
Theorem unit_override_terms :
  (∀ magnitude resp nslc fake sens units per_stage,
     outcome (stage_terms_of magnitude resp nslc) = Ok per_stage →
     instrument_sensitivity resp = Some sens →
     sens_input_units sens = Some units →
     let documented := units_name units in
     let converted :=
       outcome (Response_get_pyrocko_response magnitude resp nslc
                  (Some fake)) in
     ((fake, documented) ∈ identity_pairs →
        converted = Ok (MultiplyResponse (concat per_stage)))
     ∧ ((fake, documented) ∈ conversion_pairs →
          ∃ conresp,
            conversion !! (fake, documented) = Some (Some conresp)
            ∧ conresp ∈ [IntegrationResponse 1; IntegrationResponse 2;
                         DifferentiationResponse 1;
                         DifferentiationResponse 2]
            ∧ converted
              = Ok (MultiplyResponse (concat per_stage ++ [conresp])))
     ∧ ((fake, documented) ∉ identity_pairs ++ conversion_pairs →
          converted
          = Raise (NoResponseInformation
                     ("cannot convert between units: "
                        +:+ fake +:+ ", " +:+ documented))))
  ∧ outcome (Response_get_pyrocko_response
               Scenario_C.magnitude Scenario_D.resp Scenario_D.nslc
               (Some "M/S"))
    = Ok (MultiplyResponse [IntegrationResponse 1]).
Proof.
  split; [|by vm_compute].
  intros magnitude resp nslc fake sens units per_stage Hstages Hsens Hunits
    documented converted.
  subst converted documented.
  rewrite Response_outcome, Hstages, Hsens, Hunits. cbv zeta.
  split; [|split].
  - unfold identity_pairs. intros Hpair.
    repeat (apply elem_of_cons in Hpair as [[= -> ->]|Hpair]; [done|]).
    by apply elem_of_nil in Hpair.
  - unfold conversion_pairs. intros Hpair.
    repeat (apply elem_of_cons in Hpair as [[= -> ->]|Hpair];
            [eexists; split; [reflexivity|]; split; [set_solver|done]|]).
    by apply elem_of_nil in Hpair.
  - intros Hpair. by rewrite conversion_None.
Qed.

(** A response without an instrument sensitivity, asked for an input
    unit, raises the named error all the same: one of its stages has a
    poles and zeros record of the convention LAPLACE (HERTZ), and the
    stages are converted first. *)
Lemma missing_sensitivity_after_failing_stage :
  instrument_sensitivity Two_Matches.resp_hertz = None
  ∧ outcome (Response_get_pyrocko_response
               Scenario_C.magnitude Two_Matches.resp_hertz Two_Matches.nslc
               (Some "M"))
    = Raise (NoResponseInformation
               "cannot convert PoleZero response of type LAPLACE (HERTZ)").
Proof. split; by vm_compute. Qed.

(** C10, amended. For a response without an instrument sensitivity whose
    stages convert, a requested input unit makes the conversion fail with
    [AttributeError], not with the named error: the guard reads the input
    units of a sensitivity that is not there.  When a stage fails, the
    error of the stage is raised instead.  The named error for missing
    units is raised exactly when the stages convert, an input unit is
    requested and the sensitivity is there without input units. *)
Theorem missing_sensitivity_is_unguarded magnitude resp nslc :
  (∀ fake per_stage,
     instrument_sensitivity resp = None →
     outcome (stage_terms_of magnitude resp nslc) = Ok per_stage →
     outcome (Response_get_pyrocko_response magnitude resp nslc (Some fake))
     = Raise AttributeError)
  ∧ (∀ fake_input_units e,
       outcome (stage_terms_of magnitude resp nslc) = Raise e →
       outcome (Response_get_pyrocko_response magnitude resp nslc
                  fake_input_units)
       = Raise e)
  ∧ (∀ fake_input_units,
       outcome (Response_get_pyrocko_response magnitude resp nslc
                  fake_input_units)
       = Raise (NoResponseInformation "no input units given")
       ↔ ∃ fake sens per_stage,
           fake_input_units = Some fake
           ∧ outcome (stage_terms_of magnitude resp nslc) = Ok per_stage
           ∧ instrument_sensitivity resp = Some sens
           ∧ sens_input_units sens = None).
Proof.
  split; [|split].
  - intros fake per_stage Hsens Hstages.
    by rewrite Response_outcome, Hstages, Hsens.
  - intros fake_input_units e Hstages.
    by rewrite Response_outcome, Hstages.
  - intros fake_input_units. rewrite Response_outcome. split.
    + destruct (outcome (stage_terms_of _ _ _)) as [per_stage|e] eqn:Hstages.
      * cbv zeta. destruct fake_input_units as [fake|]; [|done].
        destruct (instrument_sensitivity resp) as [sens|]; [|done].
        destruct (sens_input_units sens) as [units|] eqn:Hunits.
        -- by destruct (conversion !! _) as [[c|]|].
        -- intros _. by exists fake, sens, per_stage.
      * apply stages_raise in Hstages as (_ & pz & _ & _ & _ & ->).
        intros [=].
    + intros (fake & sens & per_stage & -> & -> & -> & ->). done.
Qed.

(** A response without stages and without a sensitivity, asked for the
    input unit "M". *)
Lemma missing_sensitivity_witness :
  outcome (Response_get_pyrocko_response
             Scenario_C.magnitude Scenario_D.resp_without_sensitivity
             Scenario_D.nslc (Some "M"))
  = Raise AttributeError.
Proof.
  apply (proj1 (missing_sensitivity_is_unguarded
                  Scenario_C.magnitude Scenario_D.resp_without_sensitivity
                  Scenario_D.nslc) "M" []); reflexivity.
Defined.

(** ** Looking up the response of a channel *)

Section LookupFacts.
Variable magnitude : FrequencyResponse → float → float.

(** What the conversion of a response can raise. *)
Lemma Response_raises resp nslc fake_input_units e :
  outcome (Response_get_pyrocko_response magnitude resp nslc fake_input_units)
  = Raise e →
  (∃ stage pz, stage ∈ stage_list resp
     ∧ poles_zeros_list stage = [pz]
     ∧ pz_transfer_function_type pz ≠ laplace_radians
     ∧ e = NoResponseInformation
             ("cannot convert PoleZero response of type "
                +:+ pz_transfer_function_type pz))
  ∨ (∃ fake, fake_input_units = Some fake
       ∧ instrument_sensitivity resp = None ∧ e = AttributeError)
  ∨ (∃ fake sens, fake_input_units = Some fake
       ∧ instrument_sensitivity resp = Some sens
       ∧ (sens_input_units sens = None
            ∧ e = NoResponseInformation "no input units given"
          ∨ ∃ units, sens_input_units sens = Some units
              ∧ conversion !! (fake, units_name units) = None
              ∧ e = NoResponseInformation
                      ("cannot convert between units: "
                         +:+ fake +:+ ", " +:+ units_name units))).
Proof.
  rewrite Response_outcome.
  destruct (outcome (stage_terms_of _ _ _)) as [per_stage|e'] eqn:Hstages.
  - cbv zeta. destruct fake_input_units as [fake|]; [|done].
    destruct (instrument_sensitivity resp) as [sens|] eqn:Hsens.
    + destruct (sens_input_units sens) as [units|] eqn:Hunits.
      * destruct (conversion !! _) as [[c|]|] eqn:Hconv; [done..|].
        intros [= <-]. right; right. exists fake, sens.
        do 2 (split; [done|]). right. by exists units.
      * intros [= <-]. right; right. exists fake, sens.
        do 2 (split; [done|]). by left.
    + intros [= <-]. right; left. by exists fake.
  - intros [= <-]. left. by apply stages_raise in Hstages.
Qed.

(** With a sensitivity wherever an input unit is requested, a conversion
    fails with the named error only. *)
Lemma Response_raises_named resp nslc fake_input_units e :
  fake_input_units = None ∨ instrument_sensitivity resp ≠ None →
  outcome (Response_get_pyrocko_response magnitude resp nslc fake_input_units)
  = Raise e →
  ∃ msg, e = NoResponseInformation msg.
Proof.
  intros Hguard
    [(? & ? & ? & ? & ? & ->)
    |[(fake & -> & Hsens & ->)
     |(? & ? & ? & ? & [[? ->]|(? & ? & ? & ->)])]]%Response_raises;
    eauto.
  by destruct Hguard.
Qed.

(** What makes the conversion of a response fail. *)
Lemma Response_fails resp nslc fake_input_units :
  (∃ stage pz, stage ∈ stage_list resp
     ∧ poles_zeros_list stage = [pz]
     ∧ pz_transfer_function_type pz ≠ laplace_radians)
  ∨ (∃ fake sens, fake_input_units = Some fake
       ∧ instrument_sensitivity resp = Some sens
       ∧ (sens_input_units sens = None
          ∨ ∃ units, sens_input_units sens = Some units
              ∧ conversion !! (fake, units_name units) = None)) →
  ∃ e, outcome (Response_get_pyrocko_response magnitude resp nslc
                  fake_input_units) = Raise e.
Proof.
  rewrite Response_outcome.
  intros [(stage & pz & Hstage & Hpz & Htype)
         |(fake & sens & -> & Hsens & Hunits)].
  - destruct (outcome (stage_terms_of _ _ _)) as [per_stage|e] eqn:Hstages;
      [|by exists e].
    apply mapM_Ok in Hstages.
    apply list_elem_of_lookup in Hstage as [i Hi].
    destruct (Forall2_lookup_l _ _ _ _ _ Hstages Hi) as (terms & _ & Hterms).
    unfold ResponseStage_get_pyrocko_response in Hterms.
    rewrite Hpz, !outcome_bind, PolesZeros_outcome in Hterms.
    by rewrite decide_False in Hterms.
  - destruct (outcome (stage_terms_of _ _ _)) as [per_stage|e];
      [|by exists e].
    cbv zeta. rewrite Hsens.
    destruct Hunits as [->|(units & -> & ->)]; by eexists.
Qed.

Lemma get_pyrocko_response_outcome self nslc time timespan fake_input_units :
  outcome (get_pyrocko_response magnitude self nslc time timespan
             fake_input_units)
  = match outcome
            (mapM (λ resp, Response_get_pyrocko_response
                             magnitude resp nslc fake_input_units)
                  (matching_responses self nslc time timespan)) with
    | Ok [] => Raise (NoResponseInformation (format_nslc nslc))
    | Ok [resp] => Ok resp
    | Ok (_ :: _ :: _) =>
        Raise (MultipleResponseInformation (format_nslc nslc))
    | Raise e => Raise e
    end.
Proof.
  unfold get_pyrocko_response. rewrite outcome_bind.
  by destruct (outcome (mapM _ _)) as [[|r1 [|r2 rs]]|e].
Qed.

End LookupFacts.

(** Two responses match and no multiple-response error is raised: the
    conversion of the first one fails before the matches are counted. *)
Lemma two_matches_raise_no_response :
  length (matching_responses
            Two_Matches.inventory Two_Matches.nslc None None) = 2%nat
  ∧ outcome (get_pyrocko_response
               Scenario_C.magnitude Two_Matches.inventory Two_Matches.nslc
               None None None)
    = Raise (NoResponseInformation
               "cannot convert PoleZero response of type LAPLACE (HERTZ)").
Proof. by vm_compute. Qed.

(** C2, amended. When every matching response has an instrument
    sensitivity or no input unit is requested, the lookup has exactly one
    of three outcomes.  It returns a composite response exactly when one
    channel with a response matches and that response converts.  It raises
    the multiple-response error exactly when more than one response
    matches and all of them convert.  It raises the no-response error
    exactly when no response matches or the conversion of a matching
    response fails, which happens for a poles and zeros record of a
    convention other than 'LAPLACE (RADIANS/SECOND)', for a sensitivity
    without input units and for a unit pair outside the table.  More than
    one match never gives a response. *)
Theorem response_lookup_outcomes magnitude self nslc time timespan
    fake_input_units :
  let matching := matching_responses self nslc time timespan in
  let convert resp :=
    outcome (Response_get_pyrocko_response magnitude resp nslc
               fake_input_units) in
  let looked_up :=
    outcome (get_pyrocko_response magnitude self nslc time timespan
               fake_input_units) in
  fake_input_units = None
  ∨ Forall (λ resp, instrument_sensitivity resp ≠ None) matching →
  ((∃ r, looked_up = Ok r)
   ∨ (∃ msg, looked_up = Raise (NoResponseInformation msg))
   ∨ (∃ msg, looked_up = Raise (MultipleResponseInformation msg)))
  ∧ (∀ r, looked_up = Ok r ↔ ∃ resp, matching = [resp] ∧ convert resp = Ok r)
  ∧ ((∃ msg, looked_up = Raise (MultipleResponseInformation msg))
     ↔ (2 ≤ length matching)%nat
       ∧ Forall (λ resp, ∃ r, convert resp = Ok r) matching)
  ∧ ((∃ msg, looked_up = Raise (NoResponseInformation msg))
     ↔ matching = []
       ∨ Exists (λ resp, ∃ msg, convert resp
                                = Raise (NoResponseInformation msg))
                matching)
  ∧ (∀ resp msg,
       convert resp = Raise (NoResponseInformation msg) →
       (∃ stage pz, stage ∈ stage_list resp
          ∧ poles_zeros_list stage = [pz]
          ∧ pz_transfer_function_type pz ≠ laplace_radians)
       ∨ (∃ fake sens, fake_input_units = Some fake
            ∧ instrument_sensitivity resp = Some sens
            ∧ (sens_input_units sens = None
               ∨ ∃ units, sens_input_units sens = Some units
                   ∧ conversion !! (fake, units_name units) = None)))
  ∧ (∀ resp,
       resp ∈ matching →
       (∃ stage pz, stage ∈ stage_list resp
          ∧ poles_zeros_list stage = [pz]
          ∧ pz_transfer_function_type pz ≠ laplace_radians)
       ∨ (∃ fake sens, fake_input_units = Some fake
            ∧ instrument_sensitivity resp = Some sens
            ∧ (sens_input_units sens = None
               ∨ ∃ units, sens_input_units sens = Some units
                   ∧ conversion !! (fake, units_name units) = None)) →
       ∃ msg, looked_up = Raise (NoResponseInformation msg)).
Proof.
  intros matching convert looked_up Hguard.
  assert (Hnamed : ∀ resp e, resp ∈ matching → convert resp = Raise e →
                             ∃ msg, e = NoResponseInformation msg).
  { intros resp e Hin. apply Response_raises_named.
    destruct Hguard as [->|Hall]; [by left|right].
    by apply (proj1 (Forall_forall _ _) Hall). }
  assert (Hcases :
    (∃ rs, Forall2 (λ resp r, convert resp = Ok r) matching rs
           ∧ looked_up = match rs with
                         | [] => Raise (NoResponseInformation
                                          (format_nslc nslc))
                         | [r] => Ok r
                         | _ => Raise (MultipleResponseInformation
                                         (format_nslc nslc))
                         end)
    ∨ (∃ resp msg, resp ∈ matching
         ∧ convert resp = Raise (NoResponseInformation msg)
         ∧ looked_up = Raise (NoResponseInformation msg))).
  { subst looked_up. rewrite get_pyrocko_response_outcome.
    destruct (outcome (mapM _ _)) as [rs|e] eqn:Hmap.
    - left. exists rs. split; [by apply mapM_Ok|].
      by destruct rs as [|r1 [|r2 rs]].
    - right. apply mapM_Raise in Hmap
        as (pre & resp & post & Heq & _ & Hresp).
      assert (Hin : resp ∈ matching)
        by (unfold matching; rewrite Heq, elem_of_app, elem_of_cons; auto).
      destruct (Hnamed resp e Hin Hresp) as [msg ->]. by exists resp, msg. }
  assert (Hfails : ∀ resp,
            resp ∈ matching →
            (∃ stage pz, stage ∈ stage_list resp
               ∧ poles_zeros_list stage = [pz]
               ∧ pz_transfer_function_type pz ≠ laplace_radians)
            ∨ (∃ fake sens, fake_input_units = Some fake
                 ∧ instrument_sensitivity resp = Some sens
                 ∧ (sens_input_units sens = None
                    ∨ ∃ units, sens_input_units sens = Some units
                        ∧ conversion !! (fake, units_name units) = None)) →
            ∃ msg, convert resp = Raise (NoResponseInformation msg)).
  { intros resp Hin Hcause.
    destruct (Response_fails magnitude resp nslc fake_input_units Hcause)
      as [e He].
    destruct (Hnamed resp e Hin He) as [msg ->]. by exists msg. }
  clearbody looked_up matching.
  split; [|split; [|split; [|split; [|split]]]].
  - destruct Hcases as [(rs & _ & ->)|(? & msg & _ & _ & ->)]; [|by eauto].
    destruct rs as [|r1 [|r2 rs]]; eauto.
  - intros r. split.
    + destruct Hcases as [(rs & Hrs & ->)|(? & ? & _ & _ & ->)]; [|done].
      destruct rs as [|r1 [|r2 rs]]; [done| |done]. intros [= ->].
      inversion Hrs as [|resp ? ? ? Hresp Hnil]; subst.
      inversion Hnil; subst. by exists resp.
    + intros (resp & Hmatching & Hresp).
      destruct Hcases as [(rs & Hrs & ->)|(resp' & ? & Hin & Hresp' & _)].
      * rewrite Hmatching in Hrs.
        inversion Hrs as [|? r' ? ? Hr' Hnil]; subst. inversion Hnil; subst.
        congruence.
      * rewrite Hmatching in Hin. apply list_elem_of_singleton in Hin as ->.
        congruence.
  - split.
    + intros [msg Hmulti].
      destruct Hcases as [(rs & Hrs & ->)|(? & ? & _ & _ & ->)]; [|done].
      destruct rs as [|r1 [|r2 rs]]; [done..|].
      split.
      * apply Forall2_length in Hrs. rewrite Hrs. simpl. lia.
      * eapply Forall2_Forall_l; [exact Hrs|].
        apply Forall_forall. intros r _ resp Hresp. by exists r.
    + intros [Hlen Hall].
      destruct Hcases as [(rs & Hrs & ->)|(resp & ? & Hin & Hresp & _)].
      * apply Forall2_length in Hrs. rewrite Hrs in Hlen.
        destruct rs as [|r1 [|r2 rs]]; simpl in Hlen; [lia..|by eauto].
      * apply (proj1 (Forall_forall _ _) Hall) in Hin as [r Hr]. congruence.
  - split.
    + intros [msg Hnone].
      destruct Hcases as [(rs & Hrs & ->)|(resp & msg' & Hin & Hresp & _)].
      * destruct rs as [|r1 [|r2 rs]]; [|done..].
        left. by inversion Hrs.
      * right. apply Exists_exists. exists resp. eauto.
    + intros [Hnil|(resp & Hin & msg & Hresp)%Exists_exists].
      * destruct Hcases as [(rs & Hrs & ->)|(resp & ? & Hin & _)].
        -- rewrite Hnil in Hrs. inversion Hrs. by eauto.
        -- rewrite Hnil in Hin. by apply elem_of_nil in Hin.
      * destruct Hcases as [(rs & Hrs & ->)|(? & msg' & _ & _ & ->)];
          [|by eauto].
        apply list_elem_of_lookup in Hin as [i Hi].
        destruct (Forall2_lookup_l _ _ _ _ _ Hrs Hi) as (r & _ & Hr).
        congruence.
  - intros resp msg
      [(stage & pz & ? & ? & ? & _)
      |[(? & _ & _ & [=])
       |(fake & sens & ? & ? & Hunits)]]%Response_raises.
    + left. by exists stage, pz.
    + right. exists fake, sens. do 2 (split; [done|]).
      destruct Hunits as [[? _]|(units & ? & ? & _)]; [by left|right].
      by exists units.
  - intros resp Hin Hcause.
    destruct (Hfails resp Hin Hcause) as [msg Hresp].
    destruct Hcases as [(rs & Hrs & _)|(? & msg' & _ & _ & ->)];
      [|by exists msg'].
    apply list_elem_of_lookup in Hin as [i Hi].
    destruct (Forall2_lookup_l _ _ _ _ _ Hrs Hi) as (r & _ & Hr).
    congruence.
Qed.

(** The inventory with two matching responses, looked up without a
    requested input unit, is one [response_lookup_outcomes] speaks of. *)
Lemma response_lookup_witness :
  (∃ r, outcome (get_pyrocko_response
                   Scenario_C.magnitude Two_Matches.inventory
                   Two_Matches.nslc None None None) = Ok r)
  ∨ (∃ msg, outcome (get_pyrocko_response
                       Scenario_C.magnitude Two_Matches.inventory
                       Two_Matches.nslc None None None)
            = Raise (NoResponseInformation msg))
  ∨ (∃ msg, outcome (get_pyrocko_response
                       Scenario_C.magnitude Two_Matches.inventory
                       Two_Matches.nslc None None None)
            = Raise (MultipleResponseInformation msg)).
Proof.
  apply (response_lookup_outcomes
           Scenario_C.magnitude Two_Matches.inventory Two_Matches.nslc
           None None None).
  left. reflexivity.
Defined.

(** ** Grouping *)

Section MonadFolds.
Context {W : Type}.

Lemma foldM_Ok {A B} (f : B → A → M W B) acc xs b :
  outcome (foldM f acc xs) = Ok b →
  ∀ (P : list A → B → Prop),
    P [] acc →
    (∀ done x acc acc', P done acc → outcome (f acc x) = Ok acc' →
                        P (done ++ [x]) acc') →
    P xs b.
Proof.
  intros Hfold P Hinit Hstep.
  enough (Hgen : ∀ done acc, P done acc →
                   outcome (foldM f acc xs) = Ok b → P (done ++ xs) b)
    by exact (Hgen [] acc Hinit Hfold).
  clear Hfold Hinit acc.
  induction xs as [|x xs IH]; intros done acc Hacc; simpl.
  - intros [= <-]. by rewrite app_nil_r.
  - intros (acc' & Hx & Hrest)%outcome_bind_Ok.
    rewrite cons_middle, app_assoc. apply (IH _ acc'); [|done].
    by apply (Hstep done x acc acc').
Qed.

Lemma mapM_log {A B} (f : A → M W B) xs ys :
  outcome (mapM f xs) = Ok ys →
  log_of (mapM f xs) = concat ((λ x, log_of (f x)) <$> xs).
Proof.
  revert ys. induction xs as [|x xs IH]; intros ys; [done|].
  rewrite mapM_cons. intros (y & Hy & Hrest)%outcome_bind_Ok.
  apply outcome_bind_Ok in Hrest as (ys' & Hys' & _).
  rewrite log_bind, Hy, log_bind, Hys', (IH ys' Hys'). simpl.
  by rewrite app_nil_r.
Qed.

End MonadFolds.

(** The bucket of a scope and a key. *)
Definition bucket (groups : Groups) (nsl : NSL) (bic : BIC)
  : option (list Channel) :=
  groups !! nsl ≫= λ bic_to_channels, bic_to_channels !! bic.

(** The scope a channel is filed under. *)
Definition scope_of (nsc : Network * Station * Channel) : NSL :=
  (code (node nsc.1.1), code (node nsc.1.2), strip (location_code nsc.2)).

(** The input unit a channel documents. *)
Definition documented_unit (channel : Channel) : option string :=
  resp ← response channel;
  sens ← instrument_sensitivity resp;
  units ← sens_input_units sens;
  Some (units_name units).

(** The bucket key of a channel. *)
Definition key_of (channel : Channel) : BIC :=
  (band_instrument_code (code (node channel)), documented_unit channel).

Lemma channel_unit_Ok channel unit :
  outcome (channel_unit channel) = Ok unit → unit = documented_unit channel.
Proof.
  unfold channel_unit, documented_unit.
  destruct (response channel) as [resp|]; simpl; [|by intros [= <-]].
  destruct (instrument_sensitivity resp) as [sens|]; simpl;
    [|by intros [= <-]].
  destruct (sens_input_units sens) as [units|]; simpl; [|done].
  by intros [= <-].
Qed.

Lemma add_channel_Ok groups nsc groups' :
  outcome (add_channel groups nsc) = Ok groups' →
  groups'
  = <[scope_of nsc :=
        <[key_of nsc.2 :=
            default [] (bucket groups (scope_of nsc) (key_of nsc.2))
              ++ [nsc.2]]>
          (default ∅ (groups !! scope_of nsc))]> groups.
Proof.
  destruct nsc as [[network station] channel]. unfold add_channel.
  intros (unit & Hunit & [= <-])%outcome_bind_Ok.
  apply channel_unit_Ok in Hunit as ->.
  unfold bucket, scope_of, key_of. simpl.
  by destruct (groups !! _).
Qed.

Lemma bucket_add_channel groups nsc groups' nsl bic :
  outcome (add_channel groups nsc) = Ok groups' →
  bucket groups' nsl bic
  = if decide (scope_of nsc = nsl ∧ key_of nsc.2 = bic)
    then Some (default [] (bucket groups nsl bic) ++ [nsc.2])
    else bucket groups nsl bic.
Proof.
  intros ->%add_channel_Ok. unfold bucket at 1.
  destruct (decide (scope_of nsc = nsl)) as [<-|Hnsl].
  - rewrite lookup_insert_eq. simpl.
    destruct (decide (key_of nsc.2 = bic)) as [<-|Hbic].
    + rewrite lookup_insert_eq. by rewrite decide_True.
    + rewrite lookup_insert_ne by done.
      rewrite decide_False by (by intros [_ ?]).
      unfold bucket. by destruct (groups !! _).
  - rewrite lookup_insert_ne by done.
    by rewrite decide_False by (by intros [? _]).
Qed.

(** The channels of a list that belong to a scope and a key, in order. *)
Definition members (nscs : list (Network * Station * Channel))
    (nsl : NSL) (bic : BIC) : list Channel :=
  omap (λ nsc, if decide (scope_of nsc = nsl ∧ key_of nsc.2 = bic)
               then Some nsc.2 else None) nscs.

Lemma members_snoc nscs nsc nsl bic :
  members (nscs ++ [nsc]) nsl bic
  = members nscs nsl bic
      ++ if decide (scope_of nsc = nsl ∧ key_of nsc.2 = bic)
         then [nsc.2] else [].
Proof.
  unfold members. rewrite omap_app. simpl. by case_decide.
Qed.

(** After the first loop a bucket holds the channels of its scope and key,
    in the order of the iteration, and there is no empty bucket. *)
Lemma foldM_add_channel_buckets nscs groups :
  outcome (foldM add_channel ∅ nscs) = Ok groups →
  ∀ nsl bic,
    bucket groups nsl bic
    = match members nscs nsl bic with
      | [] => None
      | channels => Some channels
      end.
Proof.
  intros Hfold.
  apply (foldM_Ok _ _ _ _ Hfold
           (λ done groups, ∀ nsl bic,
              bucket groups nsl bic
              = match members done nsl bic with
                | [] => None
                | channels => Some channels
                end)).
  - intros nsl bic. unfold bucket. by rewrite lookup_empty.
  - intros done nsc acc acc' IH Hadd nsl bic.
    rewrite (bucket_add_channel _ _ _ _ _ Hadd), members_snoc, IH.
    case_decide.
    + by destruct (members done nsl bic).
    + by rewrite app_nil_r.
Qed.

Section MonadMaps.
Context {W : Type}.

Lemma mapM_Ok_fmap {A B} (f : A → M W B) (g : A → B) xs ys :
  (∀ x y, x ∈ xs → outcome (f x) = Ok y → y = g x) →
  outcome (mapM f xs) = Ok ys → ys = g <$> xs.
Proof.
  intros Hg Hmap%mapM_Ok. induction Hmap as [|x y xs ys Hy _ IH]; [done|].
  simpl. f_equal.
  - by apply Hg; [left|].
  - apply IH. intros x' y' Hx'. apply Hg. by right.
Qed.

Lemma mapM_log_elem {A B} (f : A → M W B) xs ys x w :
  outcome (mapM f xs) = Ok ys → x ∈ xs → w ∈ log_of (f x) →
  w ∈ log_of (mapM f xs).
Proof.
  intros Hmap Hx Hw. rewrite (mapM_log _ _ _ Hmap).
  apply list_elem_of_In, in_concat. exists (log_of (f x)).
  split; apply list_elem_of_In; [|done].
  apply list_elem_of_fmap. by exists x.
Qed.

End MonadMaps.

(** The sample rates of the channels of a bucket. *)
Definition sample_rates (channels : list Channel) : list float :=
  omap sample_rate channels.

(** A bucket is consistent when [same] says so of its sample rates. *)
Definition consistent (channels : list Channel) : bool :=
  match same (PyFloat <$> sample_rates channels) F.zero with
  | Ok true => true
  | _ => false
  end.

Lemma attr_rates_Ok channels rates :
  outcome (mapM (λ channel, attr (sample_rate channel) : M warning float)
                channels) = Ok rates →
  rates = sample_rates channels
  ∧ Forall (λ channel, is_Some (sample_rate channel)) channels.
Proof.
  intros Hmap%mapM_Ok.
  induction Hmap as [|channel rate channels rates Hrate _ [-> IH]]; [done|].
  unfold sample_rates. simpl.
  destruct (sample_rate channel) as [r|] eqn:Hr; [|done].
  injection Hrate as ->. split; [done|].
  constructor; [by rewrite Hr|done].
Qed.

Lemma attr_rates_log channels :
  log_of (mapM (λ channel, attr (sample_rate channel) : M warning float)
               channels) = [].
Proof.
  induction channels as [|channel channels IH]; [done|].
  rewrite mapM_cons, log_bind.
  destruct (sample_rate channel) as [r|]; simpl; [|done].
  rewrite log_bind, IH. simpl. by destruct (outcome _).
Qed.

(** The diagnostic of an inconsistent bucket. *)
Definition rates_warning (nsl : NSL) (channels : list Channel) : warning :=
  InconsistentSamplingRates nsl (code ∘ node <$> channels)
                            (sample_rates channels).

Lemma check_bucket_Ok nsl bic channels verdict :
  outcome (check_bucket nsl (bic, channels)) = Ok verdict →
  Forall (λ channel, is_Some (sample_rate channel)) channels
  ∧ (∃ ok, same (PyFloat <$> sample_rates channels) F.zero = Ok ok)
  ∧ verdict = (if consistent channels then None else Some bic)
  ∧ log_of (check_bucket nsl (bic, channels))
    = if consistent channels then [] else [rates_warning nsl channels].
Proof.
  unfold check_bucket. rewrite log_bind, attr_rates_log.
  intros (rates & Hrates & Hrest)%outcome_bind_Ok. rewrite Hrates.
  apply attr_rates_Ok in Hrates as [-> Hall]. split; [done|].
  revert Hrest. rewrite outcome_bind, log_bind. unfold consistent, lift.
  simpl. destruct (same _ _) as [[]|e]; simpl; [| |done].
  - intros [= <-]. eauto.
  - intros [= <-]. eauto.
Qed.

Lemma lookup_foldl_delete `{Countable K} {A} (m : gmap K A) (ks : list K) k :
  foldl (λ m k, delete k m) m ks !! k
  = if decide (k ∈ ks) then None else m !! k.
Proof.
  revert m. induction ks as [|k' ks IH]; intros m.
  - destruct (decide (k ∈ [])) as [Hin|_]; [|done].
    by apply elem_of_nil in Hin.
  - change (foldl _ m (k' :: ks)) with (foldl (λ m k, delete k m)
                                              (delete k' m) ks).
    rewrite IH.
    destruct (decide (k ∈ ks)) as [Hin|Hnotin],
             (decide (k ∈ k' :: ks)) as [Hin'|Hnotin']; try done.
    + destruct Hnotin'. by right.
    + apply elem_of_cons in Hin' as [->|?]; [|done].
      apply lookup_delete_eq.
    + apply lookup_delete_ne. intros ->. destruct Hnotin'. by left.
Qed.

(** The second pass keeps the consistent buckets of a scope. *)
Definition keep_consistent (bic_to_channels : Buckets) : Buckets :=
  filter (λ item, consistent item.2 = true) bic_to_channels.

Lemma prune_buckets_Ok nsl bic_to_channels item :
  outcome (prune_buckets (nsl, bic_to_channels)) = Ok item →
  item = (nsl, keep_consistent bic_to_channels).
Proof.
  unfold prune_buckets.
  intros (bad_bics & Hbad & [= <-])%outcome_bind_Ok. f_equal.
  apply (mapM_Ok_fmap _ (λ item, if consistent item.2
                                 then None else Some item.1)) in Hbad.
  2:{ intros [bic channels] verdict _ Hcheck.
      by apply check_bucket_Ok in Hcheck as (_ & _ & -> & _). }
  subst bad_bics. apply map_eq. intros bic.
  rewrite lookup_foldl_delete. unfold keep_consistent.
  destruct (bic_to_channels !! bic) as [channels|] eqn:Hbucket.
  - destruct (consistent channels) eqn:Hconsistent.
    + rewrite decide_False.
      * symmetry. by apply map_lookup_filter_Some.
      * intros (verdict & ([bic' channels'] & -> & Hitem)%list_elem_of_fmap
                & Hid)%list_elem_of_omap.
        apply elem_of_map_to_list in Hitem. simpl in Hid.
        destruct (consistent channels') eqn:Hc'; simplify_eq/=. congruence.
    + rewrite decide_True.
      * symmetry. apply map_lookup_filter_None. right.
        intros channels' Hchannels'. simpl. simplify_eq. congruence.
      * apply list_elem_of_omap. exists (Some bic). split; [|done].
        apply list_elem_of_fmap. exists (bic, channels). simpl.
        rewrite Hconsistent. split; [done|]. by apply elem_of_map_to_list.
  - case_decide; symmetry; apply map_lookup_filter_None; by left.
Qed.

Lemma get_channel_groups_Ok self net sta loc cha time timespan groups :
  outcome (get_channel_groups self net sta loc cha time timespan)
  = Ok groups →
  ∃ raw,
    outcome (group_channels self net sta loc cha time timespan) = Ok raw
    ∧ groups = keep_consistent <$> raw
    ∧ ∃ pruned,
        outcome (mapM prune_buckets (map_to_list raw)) = Ok pruned.
Proof.
  unfold get_channel_groups.
  intros (raw & Hraw & (pruned & Hpruned & [= <-])%outcome_bind_Ok)
    %outcome_bind_Ok.
  exists raw. split; [done|]. split; [|by exists pruned].
  apply (mapM_Ok_fmap _ (prod_map id keep_consistent)) in Hpruned as ->.
  - by rewrite list_to_map_fmap, list_to_map_to_list.
  - intros [nsl bic_to_channels] item _ Hitem.
    by apply prune_buckets_Ok in Hitem.
Qed.

Lemma bucket_keep_consistent raw nsl bic :
  bucket (keep_consistent <$> raw) nsl bic
  = channels ← bucket raw nsl bic;
    if consistent channels then Some channels else None.
Proof.
  unfold bucket. rewrite lookup_fmap.
  destruct (raw !! nsl) as [bic_to_channels|]; [|done]. simpl.
  unfold keep_consistent.
  destruct (bic_to_channels !! bic) as [channels|] eqn:Hbucket; simpl.
  - destruct (consistent channels) eqn:Hconsistent.
    + by apply map_lookup_filter_Some.
    + apply map_lookup_filter_None. right.
      intros channels' ?. simpl. simplify_eq. congruence.
  - apply map_lookup_filter_None. by left.
Qed.

Lemma sample_rates_Forall2 channels :
  Forall (λ channel, is_Some (sample_rate channel)) channels →
  Forall2 (λ channel rate, sample_rate channel = Some rate)
          channels (sample_rates channels).
Proof.
  induction 1 as [|channel channels [rate Hrate] _ IH]; [constructor|].
  unfold sample_rates. simpl. rewrite Hrate. by constructor.
Qed.

(** What the second pass finds out about a bucket of the first loop. *)
Lemma checked_bucket self net sta loc cha time timespan groups raw nsl bic
    channels :
  outcome (get_channel_groups self net sta loc cha time timespan)
  = Ok groups →
  outcome (group_channels self net sta loc cha time timespan) = Ok raw →
  bucket raw nsl bic = Some channels →
  Forall (λ channel, is_Some (sample_rate channel)) channels
  ∧ (∃ ok, same (PyFloat <$> sample_rates channels) F.zero = Ok ok)
  ∧ (consistent channels = false →
     rates_warning nsl channels
     ∈ log_of (get_channel_groups self net sta loc cha time timespan)).
Proof.
  intros Hgroups Hraw Hbucket.
  destruct (get_channel_groups_Ok _ _ _ _ _ _ _ _ Hgroups)
    as (raw' & Hraw' & _ & pruned & Hpruned).
  assert (raw' = raw) as -> by congruence.
  unfold bucket in Hbucket.
  destruct (raw !! nsl) as [bic_to_channels|] eqn:Hscope; [|done].
  simpl in Hbucket.
  assert (Hitem : (nsl, bic_to_channels) ∈ map_to_list raw)
    by by apply elem_of_map_to_list.
  destruct (proj1 (list_elem_of_lookup _ _) Hitem) as [i Hi].
  apply mapM_Ok in Hpruned as Hall.
  destruct (Forall2_lookup_l _ _ _ _ _ Hall Hi) as (item & _ & Hprune).
  pose proof Hprune as Hprune'. unfold prune_buckets in Hprune'.
  apply outcome_bind_Ok in Hprune' as (bad_bics & Hbad & _).
  assert (Hbic : (bic, channels) ∈ map_to_list bic_to_channels)
    by by apply elem_of_map_to_list.
  destruct (proj1 (list_elem_of_lookup _ _) Hbic) as [j Hj].
  apply mapM_Ok in Hbad as Hchecks.
  destruct (Forall2_lookup_l _ _ _ _ _ Hchecks Hj) as (verdict & _ & Hcheck).
  apply check_bucket_Ok in Hcheck as (Hrates & Hsame & _ & Hlog).
  split; [done|]. split; [done|]. intros Hinconsistent.
  unfold get_channel_groups. rewrite log_bind, Hraw, log_bind.
  apply elem_of_app. right. apply elem_of_app. left.
  apply (mapM_log_elem _ _ _ _ _ Hpruned Hitem).
  unfold prune_buckets. rewrite log_bind. apply elem_of_app. left.
  apply (mapM_log_elem _ _ _ _ _ Hbad Hbic).
  rewrite Hlog, Hinconsistent. by left.
Qed.

Lemma same_mixed x eps z f :
  PyInt z ∈ x → PyFloat f ∈ x → same x eps = Ok false.
Proof.
  intros Hint Hfloat. unfold same.
  destruct x as [|x0 x']; [by apply elem_of_nil in Hint|].
  assert (Hdiffers : existsb (λ r, type_differs x0 r) (x0 :: x') = true).
  { apply existsb_exists. destruct x0.
    - exists (PyFloat f). split; [by apply list_elem_of_In|done].
    - exists (PyInt z). split; [by apply list_elem_of_In|done]. }
  by rewrite Hdiffers.
Qed.

Lemma same_floats f0 fs eps :
  same (PyFloat <$> f0 :: fs) eps
  = Ok (forallb (λ f, F.leb (F.abs (F.sub f f0)) eps) (f0 :: fs)).
Proof.
  unfold same. rewrite fmap_cons.
  assert (Hsame : existsb (λ r, type_differs (PyFloat f0) r)
                          (PyFloat f0 :: (PyFloat <$> fs)) = false).
  { apply not_true_is_false.
    intros (r & Hr & Hdiffers)%existsb_exists.
    apply list_elem_of_In in Hr.
    rewrite <-fmap_cons in Hr. apply list_elem_of_fmap in Hr as (f & -> & _).
    done. }
  rewrite Hsame. f_equal. rewrite <-fmap_cons.
  generalize (f0 :: fs). intros l. induction l as [|f l IH]; [done|].
  simpl. by rewrite <-IH.
Qed.

(** C5. Of every bucket the first loop of [get_channel_groups] fills, the
    channels have sample rates on which [same] decides: when they are not
    the same the bucket is absent from the result and a diagnostic with the
    codes and the rates of its channels is in the log; when they are the
    same the bucket is in the result unchanged; and the result has no other
    bucket.  Sameness of floats is [|r - x0| <= 0.0] for every rate [r] and
    the first rate [x0]; a list with an integer and a float is never the
    same.  With the rates 100.0, 100.0 and 50.0 the bucket is dropped, its
    three codes and rates are reported, and the other bucket of the scope
    stays. *)
Theorem inconsistent_buckets_are_dropped :
  (∀ self net sta loc cha time timespan groups,
     outcome (get_channel_groups self net sta loc cha time timespan)
     = Ok groups →
     ∃ raw,
       outcome (group_channels self net sta loc cha time timespan) = Ok raw
       ∧ (∀ nsl bic channels,
            bucket raw nsl bic = Some channels →
            ∃ rates ok,
              Forall2 (λ channel rate, sample_rate channel = Some rate)
                      channels rates
              ∧ same (PyFloat <$> rates) F.zero = Ok ok
              ∧ if ok then bucket groups nsl bic = Some channels
                else bucket groups nsl bic = None
                     ∧ InconsistentSamplingRates
                         nsl (code ∘ node <$> channels) rates
                       ∈ log_of (get_channel_groups
                                   self net sta loc cha time timespan))
       ∧ (∀ nsl bic channels,
            bucket groups nsl bic = Some channels →
            bucket raw nsl bic = Some channels))
  ∧ (∀ x eps z f, PyInt z ∈ x → PyFloat f ∈ x → same x eps = Ok false)
  ∧ (∀ f0 fs,
       same (PyFloat <$> f0 :: fs) F.zero
       = Ok (forallb (λ f, F.leb (F.abs (F.sub f f0)) F.zero) (f0 :: fs)))
  ∧ (∃ groups,
       outcome (get_channel_groups Scenario_E.inventory
                  None None None None None None) = Ok groups
       ∧ bucket groups Scenario_E.nsl ("BH", None) = None
       ∧ bucket groups Scenario_E.nsl ("LH", None) = Some [Scenario_E.lhz]
       ∧ log_of (get_channel_groups Scenario_E.inventory
                   None None None None None None)
         = [InconsistentSamplingRates
              Scenario_E.nsl ["BHZ"; "BHN"; "BHE"]
              [F.hundred; F.hundred; Scenario_E.r50]]).
Proof.
  split; [|split; [exact same_mixed|split; [intros; apply same_floats|]]].
  - intros self net sta loc cha time timespan groups Hgroups.
    destruct (get_channel_groups_Ok _ _ _ _ _ _ _ _ Hgroups)
      as (raw & Hraw & -> & _).
    exists raw. split; [done|]. split.
    + intros nsl bic channels Hbucket.
      destruct (checked_bucket _ _ _ _ _ _ _ _ _ _ _ _ Hgroups Hraw Hbucket)
        as (Hrates & [ok Hsame] & Hlog).
      exists (sample_rates channels), ok.
      split; [by apply sample_rates_Forall2|]. split; [done|].
      rewrite bucket_keep_consistent, Hbucket. simpl.
      unfold consistent in *. rewrite Hsame in *.
      destruct ok; [done|]. split; [done|]. by apply Hlog.
    + intros nsl bic channels. rewrite bucket_keep_consistent.
      destruct (bucket raw nsl bic) as [channels'|]; [|done]. simpl.
      by destruct (consistent channels'); intros [= ->].
  - exists Scenario_E.groups. repeat split; by_evaluation.
Qed.

Lemma foldM_add_channel_units nscs groups :
  outcome (foldM add_channel ∅ nscs) = Ok groups →
  ∀ nsc, nsc ∈ nscs → ∃ unit, outcome (channel_unit nsc.2) = Ok unit.
Proof.
  intros Hfold.
  apply (foldM_Ok _ _ _ _ Hfold
           (λ done _, ∀ nsc, nsc ∈ done →
                             ∃ unit, outcome (channel_unit nsc.2) = Ok unit)).
  - by intros nsc ?%elem_of_nil.
  - intros done [[network station] channel] acc acc' IH Hadd nsc
      [Hin|Heq%list_elem_of_singleton]%elem_of_app; [by apply IH|].
    subst nsc. unfold add_channel in Hadd.
    apply outcome_bind_Ok in Hadd as (unit & Hunit & _). by exists unit.
Qed.

Lemma elem_of_members nscs nsl bic channel :
  channel ∈ members nscs nsl bic
  ↔ ∃ nsc, nsc ∈ nscs ∧ scope_of nsc = nsl ∧ key_of nsc.2 = bic
           ∧ nsc.2 = channel.
Proof.
  unfold members. rewrite list_elem_of_omap. split.
  - intros (nsc & Hin & Hnsc). exists nsc.
    case_decide as Hkeys; [|done]. destruct Hkeys. by simplify_eq.
  - intros (nsc & Hin & Hscope & Hkey & <-). exists nsc. split; [done|].
    by rewrite decide_True.
Qed.

Lemma documented_unit_of_sensitivity channel resp sens unit :
  outcome (channel_unit channel) = Ok unit →
  response channel = Some resp →
  instrument_sensitivity resp = Some sens →
  ∃ units, sens_input_units sens = Some units
           ∧ documented_unit channel = Some (units_name units).
Proof.
  unfold channel_unit, documented_unit. intros Hunit Hresp Hsens.
  rewrite Hresp in *. simpl in *. rewrite Hsens in *. simpl in *.
  destruct (sens_input_units sens) as [units|]; [|done]. by exists units.
Qed.

(** A channel without a response is filed under the unit [None], and there
    is no bucket with the unit "unknown". *)
Lemma absent_unit_is_None_not_unknown :
  response Scenario_E.lhz = None
  ∧ ∃ groups,
      outcome (get_channel_groups Scenario_E.inventory
                 None None None None None None) = Ok groups
      ∧ bucket groups Scenario_E.nsl ("LH", None) = Some [Scenario_E.lhz]
      ∧ bucket groups Scenario_E.nsl ("LH", Some "unknown") = None.
Proof.
  split; [done|]. exists Scenario_E.groups. repeat split; by_evaluation.
Qed.

(** C4, amended. When [get_channel_groups] returns, every channel that
    the iteration yields has been filed by the first loop under the scope
    (network code, station code, stripped location code) in the bucket of
    its key: that bucket holds exactly the yielded channels of this scope
    and key, in the order of the iteration, and it is in the result exactly
    when its sample rates are consistent.  The key pairs the band and
    instrument code with the unit.  The code is the first two characters
    of a channel code of 3 characters, the empty string for a code of 1
    character and the whole code otherwise.  The unit is the name of the
    input units of the sensitivity of the channel's response, and [None]
    when the response or the sensitivity is absent.  Every channel of a
    bucket of the result is filed under its own scope and key. *)
Theorem channels_are_bucketed_by_code_and_unit :
  (∀ self net sta loc cha time timespan groups,
     outcome (get_channel_groups self net sta loc cha time timespan)
     = Ok groups →
     let yielded :=
       iter_network_station_channels self net sta loc cha time timespan in
     ∃ raw,
       outcome (group_channels self net sta loc cha time timespan) = Ok raw
       ∧ (∀ network station channel,
            (network, station, channel) ∈ yielded →
            let nsl := (code (node network), code (node station),
                        strip (location_code channel)) in
            let bic := (band_instrument_code (code (node channel)),
                        documented_unit channel) in
            let channels := members yielded nsl bic in
            (∀ resp sens,
               response channel = Some resp →
               instrument_sensitivity resp = Some sens →
               ∃ units, sens_input_units sens = Some units
                        ∧ documented_unit channel = Some (units_name units))
            ∧ channel ∈ channels
            ∧ bucket raw nsl bic = Some channels
            ∧ bucket groups nsl bic
              = if consistent channels then Some channels else None)
       ∧ (∀ nsl bic channel,
            channel ∈ members yielded nsl bic
            ↔ ∃ network station,
                (network, station, channel) ∈ yielded
                ∧ nsl = (code (node network), code (node station),
                         strip (location_code channel))
                ∧ bic = (band_instrument_code (code (node channel)),
                         documented_unit channel))
       ∧ (∀ nsl bic channels,
            bucket groups nsl bic = Some channels →
            channels = members yielded nsl bic
            ∧ channels ≠ [] ∧ consistent channels = true))
  ∧ (∀ channel,
       response channel = None
       ∨ (∃ resp, response channel = Some resp
                  ∧ instrument_sensitivity resp = None) →
       documented_unit channel = None)
  ∧ (∀ a b c,
       band_instrument_code (String a (String b (String c "")))
       = String a (String b ""))
  ∧ (∀ a, band_instrument_code (String a "") = "")
  ∧ (∀ cha, len cha ≠ 3%nat → len cha ≠ 1%nat →
            band_instrument_code cha = cha).
Proof.
  split; [|split; [|split; [done|split; [done|]]]].
  - intros self net sta loc cha time timespan groups Hgroups yielded.
    destruct (get_channel_groups_Ok _ _ _ _ _ _ _ _ Hgroups)
      as (raw & Hraw & -> & _).
    pose proof (foldM_add_channel_buckets _ _ Hraw) as Hbuckets.
    pose proof (foldM_add_channel_units _ _ Hraw) as Hunits.
    fold yielded in Hbuckets, Hunits.
    exists raw. split; [done|]. split; [|split].
    + intros network station channel Hin nsl bic channels.
      assert (Hmember : channel ∈ channels).
      { apply elem_of_members. by exists (network, station, channel). }
      assert (Hraw_bucket : bucket raw nsl bic = Some channels).
      { rewrite Hbuckets. fold channels.
        destruct channels; [by apply elem_of_nil in Hmember|done]. }
      split; [|split; [done|split; [done|]]].
      * intros resp sens Hresp Hsens.
        destruct (Hunits _ Hin) as [unit Hunit].
        by apply (documented_unit_of_sensitivity _ resp sens _ Hunit).
      * by rewrite bucket_keep_consistent, Hraw_bucket.
    + intros nsl bic channel. rewrite elem_of_members. split.
      * intros ([[network station] channel'] & Hin & <- & <- & Heq).
        simpl in Heq. subst channel'. by exists network, station.
      * intros (network & station & Hin & -> & ->).
        by exists (network, station, channel).
    + intros nsl bic channels Hbucket.
      rewrite bucket_keep_consistent, Hbuckets in Hbucket.
      destruct (members yielded nsl bic) as [|c cs] eqn:Hmembers; [done|].
      simpl in Hbucket.
      destruct (consistent (c :: cs)) eqn:Hconsistent; [|done].
      by injection Hbucket as <-.
  - intros channel [Hresp|(resp & Hresp & Hsens)]; unfold documented_unit.
    + by rewrite Hresp.
    + rewrite Hresp. simpl. by rewrite Hsens.
  - intros cha Hne3 Hne1. unfold band_instrument_code.
    by rewrite !decide_False.
Qed.

(** The inventory of four channels without responses is one
    [channels_are_bucketed_by_code_and_unit] speaks of: the channel LHZ is
    alone in its bucket, which is in the result. *)
Lemma channels_are_bucketed_witness :
  bucket Scenario_E.groups Scenario_E.nsl ("LH", None)
  = Some [Scenario_E.lhz].
Proof.
  destruct (proj1 channels_are_bucketed_by_code_and_unit
              Scenario_E.inventory None None None None None None
              Scenario_E.groups ltac:(by_evaluation))
    as (raw & _ & Hfiled & _).
  assert (Hyielded :
    (Scenario_E.network, Scenario_E.station, Scenario_E.lhz)
    ∈ iter_network_station_channels Scenario_E.inventory
        None None None None None None).
  { simpl. do 3 right. left. }
  destruct (Hfiled _ _ _ Hyielded) as (_ & _ & _ & Hbucket).
  exact Hbucket.
Defined.

(** * Further properties *)

(** ** Averaged positions *)

(** The mean the specification describes: the sum of the finite values
    divided by the count of the finite values. *)
Definition finite_mean (column : list float) : float :=
  F.div (np_sum (filter (λ x, F.is_finite x = true) column))
        (F.of_Z (count_finite column)).

(** C9. With the policy 'raise', channels that disagree on position raise
    [InconsistentChannelLocations]; channels that agree leave no diagnostic
    in the log.  With the policy 'warn' and the depths infinity and 10.0
    the station is returned with the two diagnostics and with an infinite
    depth, where the mean of the finite values is 10.0: [num.nansum] leaves
    out NaN only, and the infinity enters the sum. *)
Theorem infinite_depth_enters_the_mean :
  (∀ nsl channel0 rest,
     forallb (λ x, py_eq (position_values channel0) (position_values x)) rest
     = false →
     outcome (pyrocko_station_from_channels nsl (channel0 :: rest) "raise")
     = Raise InconsistentChannelLocations)
  ∧ (∀ nsl channel0 rest inconsistencies,
       forallb (λ x, py_eq (position_values channel0) (position_values x))
               rest = true →
       log_of (pyrocko_station_from_channels
                 nsl (channel0 :: rest) inconsistencies) = [])
  ∧ (∃ station,
       pyrocko_station_from_channels
         Infinite_Depth.nsl Infinite_Depth.channels "warn"
       = ([InconsistentLocations
             Infinite_Depth.nsl
             ((λ x, (code (node x), position_values x))
                <$> Infinite_Depth.channels);
           UsingMeanValues],
          Ok station)
       ∧ ps_lat station = F.one
       ∧ ps_depth station = F.infinity
       ∧ finite_mean [F.infinity; Infinite_Depth.ten] = Infinite_Depth.ten).
Proof.
  split; [|split].
  - intros nsl channel0 rest Hdisagree.
    unfold pyrocko_station_from_channels. rewrite !outcome_bind.
    cbn [lift outcome snd tail]. by rewrite Hdisagree.
  - intros nsl channel0 rest inconsistencies Hagree.
    unfold pyrocko_station_from_channels. rewrite !log_bind.
    cbn [lift outcome log_of fst snd tail]. by rewrite Hagree.
  - eexists. split; [by vm_compute|]. by vm_compute.
Qed.

(** ** The parser of the station summary *)

Module rdseed_facts.
Import rdseed.

Lemma string_app_cons c (s1 s2 : string) :
  String c s1 +:+ s2 = String c (s1 +:+ s2).
Proof. done. Qed.

Lemma string_app_nil_l (s : string) : "" +:+ s = s.
Proof. done. Qed.

Lemma string_app_assoc (s1 s2 s3 : string) :
  (s1 +:+ s2) +:+ s3 = s1 +:+ (s2 +:+ s3).
Proof.
  induction s1 as [|c s1 IH]; [done|]. by rewrite !string_app_cons, IH.
Qed.

Lemma string_app_nil_r (s : string) : s +:+ "" = s.
Proof.
  induction s as [|c s IH]; [done|]. by rewrite string_app_cons, IH.
Qed.

Lemma string_app_length (s1 s2 : string) :
  String.length (s1 +:+ s2) = (String.length s1 + String.length s2)%nat.
Proof.
  induction s1 as [|c s1 IH]; [done|]. rewrite string_app_cons. simpl.
  by rewrite IH.
Qed.

Lemma substring_0_app (s1 s2 : string) :
  substring 0 (String.length s1) (s1 +:+ s2) = s1.
Proof.
  induction s1 as [|c s1 IH].
  - rewrite string_app_nil_l. by destruct s2.
  - rewrite string_app_cons. simpl. by rewrite IH.
Qed.

Lemma loop_app v s1 s2 :
  loop v (s1 +:+ s2) = v' ← loop v s1; loop v' s2.
Proof.
  revert v. induction s1 as [|c s1 IH]; intros v; [done|].
  rewrite string_app_cons. cbn [loop].
  destruct (step v c) as [v'|]; [|done]. cbn. apply IH.
Qed.

(** The characters of a string. *)
Fixpoint chars (s : string) : list ascii :=
  match s with
  | EmptyString => []
  | String c s' => c :: chars s'
  end.

(** Once [new_state] is bound it stays bound, and the loop goes on. *)
Lemma step_bound v c :
  is_Some (new_state v) →
  ∃ v', step v c = Some v' ∧ is_Some (new_state v').
Proof.
  intros [s Hs]. unfold step, branch. rewrite Hs.
  destruct (current v), (is_quote c), (is_blank c), (is_newline c);
    cbn; eauto.
Qed.

Lemma loop_bound v data :
  is_Some (new_state v) → is_Some (loop v data).
Proof.
  revert v. induction data as [|c data IH]; intros v Hv; [by eexists|].
  cbn. destruct (step_bound v c Hv) as (v' & -> & Hv'). cbn. by apply IH.
Qed.

Lemma quote_is_not_blank c : is_quote c = true → is_blank c = false.
Proof.
  unfold is_quote, is_blank. intros ->%N.eqb_eq. done.
Qed.

Lemma step_initial c :
  step initial c
  = if is_quote c then
      Some {| current := in_str; new_state := Some in_str; rows := [];
              cols := []; accu := add_char "" c |}
    else if is_blank c then None
    else
      Some {| current := in_kw; new_state := Some in_kw; rows := [];
              cols := []; accu := add_char "" c |}.
Proof.
  unfold step, branch, initial. cbn [current new_state rows cols accu].
  by destruct (is_quote c), (is_blank c).
Qed.

(** X1. [dumb_parser] fails, with the [UnboundLocalError] of
    [state = new_state], exactly on the inputs whose first character is a
    space, a tab, a line feed or a carriage return; on every other input,
    the empty one included, it returns rows. *)
Theorem dumb_parser_fails_on_leading_blank (data : string) :
  dumb_parser data = None
  ↔ ∃ c rest, data = String c rest ∧ is_blank c = true.
Proof.
  unfold dumb_parser. destruct data as [|c rest].
  - split; [done|]. by intros (? & ? & [=] & _).
  - cbn [loop]. rewrite step_initial.
    destruct (is_quote c) eqn:Hquote; [|destruct (is_blank c) eqn:Hblank].
    + apply quote_is_not_blank in Hquote as Hblank. cbn.
      match goal with
      | |- context [loop ?v rest] =>
          destruct (loop_bound v rest) as [v' Hv']; [by eexists|]
      end.
      cbn. rewrite Hv'. cbn. split; [done|].
      intros (? & ? & [= <- <-] & ?). congruence.
    + split; [|done]. intros _. by exists c, rest.
    + cbn.
      match goal with
      | |- context [loop ?v rest] =>
          destruct (loop_bound v rest) as [v' Hv']; [by eexists|]
      end.
      cbn. rewrite Hv'. cbn. split; [done|].
      intros (? & ? & [= <- <-] & ?). congruence.
Qed.

Definition newline : string := String (ascii_of_nat 10) "".

(** A keyword: not empty, without blank characters and not starting with
    a double quote. *)
Definition keyword (w : string) : Prop :=
  match w with
  | EmptyString => False
  | String c _ =>
      is_quote c = false ∧ Forall (λ c, is_blank c = false) (chars w)
  end.

(** A row as text: its keywords separated by one space and ended by a
    line feed. *)
Fixpoint render_row (ws : list string) : string :=
  match ws with
  | [] => ""
  | [w] => w +:+ newline
  | w :: ws' => w +:+ " " +:+ render_row ws'
  end.

Definition render (table : list (list string)) : string :=
  foldr (λ row s, render_row row +:+ s) "" table.

Lemma loop_in_kw R C (a w : string) :
  Forall (λ c, is_blank c = false) (chars w) →
  loop (Locals in_kw (Some in_kw) R C a) w
  = Some (Locals in_kw (Some in_kw) R C (a +:+ w)).
Proof.
  revert a. induction w as [|c w IH]; intros a Hw.
  - by rewrite string_app_nil_r.
  - inversion Hw as [|? ? Hc Hw']; subst. cbn [loop].
    unfold step, branch. cbn [current new_state rows cols accu].
    rewrite Hc. cbn. rewrite IH by done. unfold add_char.
    by rewrite string_app_assoc.
Qed.

Lemma loop_keyword ns R C w :
  keyword w →
  loop (Locals in_ws ns R C "") w = Some (Locals in_kw (Some in_kw) R C w).
Proof.
  destruct w as [|c w]; [done|]. intros [Hquote Hw].
  inversion Hw as [|? ? Hc Hw']; subst. cbn [loop].
  unfold step, branch. cbn [current new_state rows cols accu].
  rewrite Hquote, Hc. cbn. by rewrite loop_in_kw.
Qed.

Lemma loop_keyword_space ns R C w :
  keyword w →
  loop (Locals in_ws ns R C "") (w +:+ " ")
  = Some (Locals in_ws (Some in_ws) R (C ++ [w]) "").
Proof.
  intros Hw. by rewrite loop_app, loop_keyword.
Qed.

Lemma loop_keyword_newline ns R C w :
  keyword w →
  loop (Locals in_ws ns R C "") (w +:+ newline)
  = Some (Locals in_ws (Some in_ws) (R ++ [C ++ [w]]) [] "").
Proof.
  intros Hw. by rewrite loop_app, loop_keyword.
Qed.

Lemma loop_row ns R C ws :
  ws ≠ [] → Forall keyword ws →
  loop (Locals in_ws ns R C "") (render_row ws)
  = Some (Locals in_ws (Some in_ws) (R ++ [C ++ ws]) [] "").
Proof.
  revert ns C. induction ws as [|w ws IH]; intros ns C Hne Hws; [done|].
  inversion Hws as [|? ? Hw Hws']; subst.
  destruct ws as [|w' ws].
  - by apply loop_keyword_newline.
  - change (render_row (w :: w' :: ws))
      with (w +:+ " " +:+ render_row (w' :: ws)).
    rewrite <-string_app_assoc, loop_app, loop_keyword_space by done.
    cbn. rewrite IH by done. by rewrite <-app_assoc.
Qed.

Lemma loop_table ns R table :
  Forall (λ row, row ≠ [] ∧ Forall keyword row) table →
  ∃ ns', loop (Locals in_ws ns R [] "") (render table)
         = Some (Locals in_ws ns' (R ++ table) [] "").
Proof.
  revert ns R. induction table as [|row table IH]; intros ns R Htable.
  - exists ns. by rewrite app_nil_r.
  - inversion Htable as [|? ? [Hne Hrow] Htable']; subst.
    change (render (row :: table)) with (render_row row +:+ render table).
    rewrite loop_app, loop_row by done. cbn.
    destruct (IH (Some in_ws) (R ++ [row]) Htable') as [ns' ->].
    exists ns'. by rewrite <-app_assoc.
Qed.

(** X2. [dumb_parser] reads back a table of keywords: for rows that are
    not empty and consist of keywords, the text that separates the keywords
    of a row by one space and ends each row with a line feed is parsed into
    exactly these rows. *)
Theorem dumb_parser_reads_rendered_table (table : list (list string)) :
  Forall (λ row, row ≠ [] ∧ Forall keyword row) table →
  dumb_parser (render table) = Some table.
Proof.
  intros Htable. unfold dumb_parser.
  destruct (loop_table None [] table Htable) as [ns' Hloop].
  unfold initial. by rewrite Hloop.
Qed.

Lemma dumb_parser_reads_rendered_table_witness :
  dumb_parser (render [["APE"; "GE"]; ["KTHA"; "GE"; "BHZ"]])
  = Some [["APE"; "GE"]; ["KTHA"; "GE"; "BHZ"]].
Proof.
  apply dumb_parser_reads_rendered_table.
  repeat constructor; done.
Defined.

(** Keywords each followed by one space. *)
Definition render_cols (ws : list string) : string :=
  foldr (λ w s, w +:+ " " +:+ s) "" ws.

Lemma loop_cols ns R C ws :
  Forall keyword ws →
  ∃ ns', loop (Locals in_ws ns R C "") (render_cols ws)
         = Some (Locals in_ws ns' R (C ++ ws) "").
Proof.
  revert ns C. induction ws as [|w ws IH]; intros ns C Hws.
  - exists ns. by rewrite app_nil_r.
  - inversion Hws as [|? ? Hw Hws']; subst.
    change (render_cols (w :: ws)) with (w +:+ " " +:+ render_cols ws).
    rewrite <-string_app_assoc, loop_app, loop_keyword_space by done. cbn.
    destruct (IH (Some in_ws) (C ++ [w]) Hws') as [ns' ->].
    exists ns'. by rewrite <-app_assoc.
Qed.

(** X3. A keyword at the very end of the input, with no blank character
    after it, is lost: after a table of keyword rows and the keywords [ws]
    of an unfinished row, a last keyword [w] is not in the result, which
    is the table followed by [ws] when [ws] is not empty. *)
Theorem dumb_parser_drops_pending_keyword table ws w :
  Forall (λ row, row ≠ [] ∧ Forall keyword row) table →
  Forall keyword ws →
  keyword w →
  dumb_parser (render table +:+ render_cols ws +:+ w)
  = Some (if decide (ws = []) then table else table ++ [ws]).
Proof.
  intros Htable Hws Hw. unfold dumb_parser, initial.
  destruct (loop_table None [] table Htable) as [ns1 Hloop1].
  destruct (loop_cols ns1 table [] ws Hws) as [ns2 Hloop2].
  rewrite app_nil_l in Hloop1, Hloop2.
  rewrite loop_app, Hloop1. cbn [mbind option_bind].
  rewrite loop_app, Hloop2. cbn [mbind option_bind].
  rewrite loop_keyword by done. cbn [mbind option_bind cols rows].
  destruct ws as [|w' ws']; repeat case_decide; simplify_eq/=; done.
Qed.

Lemma dumb_parser_drops_pending_keyword_witness :
  dumb_parser (render [["APE"; "GE"]] +:+ render_cols ["KTHA"] +:+ "GE")
  = Some [["APE"; "GE"]; ["KTHA"]].
Proof.
  apply (dumb_parser_drops_pending_keyword [["APE"; "GE"]] ["KTHA"] "GE");
    repeat constructor; done.
Defined.

Definition double_quote : string := String (ascii_of_nat 34) "".

Lemma loop_in_str R C (a s : string) :
  Forall (λ c, is_quote c = false) (chars s) →
  loop (Locals in_str (Some in_str) R C a) s
  = Some (Locals in_str (Some in_str) R C (a +:+ s)).
Proof.
  revert a. induction s as [|c s IH]; intros a Hs.
  - by rewrite string_app_nil_r.
  - inversion Hs as [|? ? Hc Hs']; subst. cbn [loop].
    unfold step, branch. cbn [current new_state rows cols accu].
    rewrite Hc. cbn. rewrite IH by done. unfold add_char.
    by rewrite string_app_assoc.
Qed.

Lemma inner_quoted (s : string) :
  inner (double_quote +:+ s +:+ double_quote) = s.
Proof.
  unfold inner, double_quote. rewrite !string_app_cons, string_app_nil_l.
  cbn [String.length substring]. rewrite string_app_length. simpl.
  replace (String.length s + 1 - 1)%nat with (String.length s) by lia.
  apply substring_0_app.
Qed.

Lemma loop_quoted ns R C s :
  Forall (λ c, is_quote c = false) (chars s) →
  loop (Locals in_ws ns R C "") (double_quote +:+ s +:+ double_quote)
  = Some (Locals in_ws (Some in_ws) R (C ++ [s]) "").
Proof.
  intros Hs. unfold double_quote at 1. rewrite string_app_cons.
  cbn [loop]. unfold step at 1, branch.
  cbn [current new_state rows cols accu].
  change (is_quote (ascii_of_nat 34)) with true. cbn [mbind option_bind].
  rewrite string_app_nil_l, loop_app, loop_in_str by done.
  cbn [mbind option_bind]. unfold double_quote at 1. cbn [loop].
  unfold step, branch. cbn [current new_state rows cols accu].
  change (is_quote (ascii_of_nat 34)) with true.
  change (is_newline (ascii_of_nat 34)) with false.
  cbn [mbind option_bind].
  rewrite <-(inner_quoted s) at 2. unfold add_char, double_quote.
  by rewrite string_app_nil_l, string_app_assoc.
Qed.

Lemma loop_blanks R C (blanks : string) :
  Forall (λ c, is_blank c = true) (chars blanks) →
  loop (Locals in_ws (Some in_ws) R C "") blanks
  = Some (Locals in_ws (Some in_ws) R C "").
Proof.
  induction blanks as [|c blanks IH]; intros Hblanks; [done|].
  inversion Hblanks as [|? ? Hc Hblanks']; subst. cbn [loop].
  unfold step, branch. cbn [current new_state rows cols accu].
  assert (is_quote c = false) as ->.
  { destruct (is_quote c) eqn:Hquote; [|done].
    apply quote_is_not_blank in Hquote. congruence. }
  rewrite Hc. cbn. by apply IH.
Qed.

(** Quoted fields, each followed by blank characters. *)
Definition render_quoted (items : list (string * string)) : string :=
  foldr (λ item s, double_quote +:+ item.1 +:+ double_quote
                     +:+ item.2 +:+ s) "" items.

Lemma loop_quoted_items ns R C items :
  Forall (λ item, Forall (λ c, is_quote c = false) (chars item.1)
                  ∧ Forall (λ c, is_blank c = true) (chars item.2)) items →
  ∃ ns', loop (Locals in_ws ns R C "") (render_quoted items)
         = Some (Locals in_ws ns' R (C ++ items.*1) "").
Proof.
  revert ns C. induction items as [|[s blanks] items IH]; intros ns C Hitems.
  - exists ns. by rewrite app_nil_r.
  - inversion Hitems as [|? ? [Hs Hblanks] Hitems']; subst.
    replace (render_quoted ((s, blanks) :: items))
      with ((double_quote +:+ s +:+ double_quote)
              +:+ (blanks +:+ render_quoted items))
      by (unfold render_quoted; simpl; by rewrite !string_app_assoc).
    rewrite loop_app, loop_quoted by done. cbn [mbind option_bind].
    rewrite loop_app, loop_blanks by done. cbn [mbind option_bind].
    destruct (IH (Some in_ws) (C ++ [s]) Hitems') as [ns' ->].
    exists ns'. by rewrite <-app_assoc.
Qed.

(** X4. Quoted fields keep their text, blank characters included, and no
    line feed after a quoted field ends a row: a text of quoted fields
    without inner double quotes, each followed by any blank characters, is
    parsed into one row with the fields' texts. *)
Theorem dumb_parser_quoted_fields_share_a_row (items : list (string * string)) :
  Forall (λ item, Forall (λ c, is_quote c = false) (chars item.1)
                  ∧ Forall (λ c, is_blank c = true) (chars item.2)) items →
  dumb_parser (render_quoted items)
  = Some (if decide (items = []) then [] else [items.*1]).
Proof.
  intros Hitems. unfold dumb_parser, initial.
  destruct (loop_quoted_items None [] [] items Hitems) as [ns' ->].
  cbn [mbind option_bind cols rows]. rewrite app_nil_l.
  destruct items as [|item items]; repeat case_decide; simplify_eq/=; done.
Qed.

Lemma dumb_parser_quoted_fields_witness :
  dumb_parser (render_quoted [("Apirathos, Naxos", newline);
                              ("Karpathos", newline)])
  = Some [["Apirathos, Naxos"; "Karpathos"]].
Proof.
  apply (dumb_parser_quoted_fields_share_a_row
           [("Apirathos, Naxos", newline); ("Karpathos", newline)]).
  repeat constructor; done.
Defined.

End rdseed_facts.

(** ** Ranking and selection *)

Section Orders.

(** A comparison function that decides [==] and [<] on a domain and
    orders the domain totally up to [==]. *)
Record Ordered {A} `{PyOrd A} (dom : A → Prop)
    (cmp : A → A → comparison) : Prop := {
  ord_eq : ∀ a b, dom a → dom b →
    py_eq a b = match cmp a b with Eq => true | _ => false end;
  ord_lt : ∀ a b, dom a → dom b →
    py_lt a b = match cmp a b with Lt => true | _ => false end;
  ord_refl : ∀ a, dom a → cmp a a = Eq;
  ord_antisym : ∀ a b, dom a → dom b → cmp b a = CompOpp (cmp a b);
  ord_trans : ∀ a b c, dom a → dom b → dom c →
    cmp a b = Lt → cmp b c = Lt → cmp a c = Lt;
  ord_eq_l : ∀ a b c, dom a → dom b → dom c →
    cmp a b = Eq → cmp a c = cmp b c }.

Lemma Z_Ordered : Ordered (λ _ : Z, True) Z.compare.
Proof.
  split; intros; simpl.
  - rewrite Z.eqb_compare. done.
  - rewrite Z.ltb_compare. done.
  - apply Z.compare_refl.
  - apply Z.compare_antisym.
  - rewrite Z.compare_lt_iff in *. lia.
  - apply Z.compare_eq in H2. by subst.
Qed.

Lemma nat_Ordered : Ordered (λ _ : nat, True) Nat.compare.
Proof.
  split; intros; simpl.
  - destruct (Nat.compare_spec a b), (Nat.eqb_spec a b); done || lia.
  - destruct (Nat.compare_spec a b), (Nat.ltb_spec a b); done || lia.
  - apply Nat.compare_refl.
  - apply Nat.compare_antisym.
  - rewrite Nat.compare_lt_iff in *. lia.
  - apply Nat.compare_eq in H2. by subst.
Qed.

Lemma string_compare_refl (s : string) : String.compare s s = Eq.
Proof.
  induction s as [|a s IH]; [done|]. simpl.
  unfold Ascii.compare. by rewrite N.compare_refl.
Qed.

Lemma string_compare_trans (s1 s2 s3 : string) :
  String.compare s1 s2 = Lt → String.compare s2 s3 = Lt →
  String.compare s1 s3 = Lt.
Proof.
  revert s2 s3. induction s1 as [|a1 s1 IH]; intros [|a2 s2] [|a3 s3];
    simpl; try done.
  destruct (Ascii.compare a1 a2) eqn:H12; [|  |done].
  - apply Ascii.compare_eq_iff in H12 as ->.
    destruct (Ascii.compare a2 a3); [|done..]. apply IH.
  - intros _. destruct (Ascii.compare a2 a3) eqn:H23; [| |done].
    + apply Ascii.compare_eq_iff in H23 as ->. by rewrite H12.
    + intros _. assert (Ascii.compare a1 a3 = Lt) as ->; [|done].
      unfold Ascii.compare in *. rewrite N.compare_lt_iff in *. lia.
Qed.

Lemma string_Ordered : Ordered (λ _ : string, True) String.compare.
Proof.
  split; intros; simpl.
  - destruct (String.eqb_spec a b) as [->|Hne].
    + by rewrite string_compare_refl.
    + destruct (String.compare a b) eqn:Hcmp; [|done..].
      by apply String.compare_eq_iff in Hcmp.
  - done.
  - apply string_compare_refl.
  - apply String.compare_antisym.
  - by eapply string_compare_trans.
  - apply String.compare_eq_iff in H2. by subst.
Qed.

(** Floats other than NaN. *)
Definition float_cmp (a b : float) : comparison :=
  default Eq (SFcompare a b).

Definition not_nan (a : float) : Prop := F.is_nan a = false.

(** The order of two finite floats of one sign, by exponent and then by
    mantissa. *)
Definition magnitude_cmp (e1 : Z) (m1 : positive) (e2 : Z) (m2 : positive)
  : comparison :=
  match Z.compare e1 e2 with
  | Lt => Lt
  | Gt => Gt
  | Eq => Pos.compare m1 m2
  end.

Lemma magnitude_cmp_refl e m : magnitude_cmp e m e m = Eq.
Proof.
  unfold magnitude_cmp. by rewrite Z.compare_refl, Pos.compare_refl.
Qed.

Lemma magnitude_cmp_antisym e1 m1 e2 m2 :
  magnitude_cmp e2 m2 e1 m1 = CompOpp (magnitude_cmp e1 m1 e2 m2).
Proof.
  unfold magnitude_cmp. rewrite (Z.compare_antisym e1 e2).
  destruct (Z.compare e1 e2); simpl; [|done..].
  apply Pos.compare_antisym.
Qed.

Lemma magnitude_cmp_Eq e1 m1 e2 m2 :
  magnitude_cmp e1 m1 e2 m2 = Eq → e1 = e2 ∧ m1 = m2.
Proof.
  unfold magnitude_cmp. destruct (Z.compare_spec e1 e2); [|done..].
  intros ?%Pos.compare_eq. done.
Qed.

Lemma magnitude_cmp_trans e1 m1 e2 m2 e3 m3 :
  magnitude_cmp e1 m1 e2 m2 = Lt → magnitude_cmp e2 m2 e3 m3 = Lt →
  magnitude_cmp e1 m1 e3 m3 = Lt.
Proof.
  unfold magnitude_cmp.
  destruct (Z.compare_spec e1 e2), (Z.compare_spec e2 e3),
           (Z.compare_spec e1 e3); try done; try lia.
  rewrite !Pos.compare_lt_iff. lia.
Qed.

Lemma magnitude_cmp_trans_Gt e1 m1 e2 m2 e3 m3 :
  magnitude_cmp e1 m1 e2 m2 = Gt → magnitude_cmp e2 m2 e3 m3 = Gt →
  magnitude_cmp e1 m1 e3 m3 = Gt.
Proof.
  intros H12 H23.
  rewrite magnitude_cmp_antisym, (magnitude_cmp_trans e3 m3 e2 m2 e1 m1);
    [done| |].
  - by rewrite magnitude_cmp_antisym, H23.
  - by rewrite magnitude_cmp_antisym, H12.
Qed.

Lemma SFcompare_finite s1 m1 e1 s2 m2 e2 :
  SFcompare (S754_finite s1 m1 e1) (S754_finite s2 m2 e2)
  = Some match s1, s2 with
         | true, false => Lt
         | false, true => Gt
         | false, false => magnitude_cmp e1 m1 e2 m2
         | true, true => CompOpp (magnitude_cmp e1 m1 e2 m2)
         end.
Proof.
  unfold magnitude_cmp, Pos.compare. simpl.
  destruct s1, s2; try done; by destruct (Z.compare e1 e2).
Qed.

Lemma float_cmp_refl a : not_nan a → float_cmp a a = Eq.
Proof.
  unfold float_cmp. destruct a as [[]|[]| |[] m e]; try done;
    rewrite SFcompare_finite; simpl; by rewrite magnitude_cmp_refl.
Qed.

Lemma float_cmp_antisym a b :
  not_nan a → not_nan b → float_cmp b a = CompOpp (float_cmp a b).
Proof.
  unfold float_cmp.
  destruct a as [[]|[]| |[] ma ea], b as [[]|[]| |[] mb eb]; try done;
    rewrite !SFcompare_finite; simpl;
    rewrite (magnitude_cmp_antisym ea ma eb mb);
    by destruct (magnitude_cmp ea ma eb mb).
Qed.

Lemma float_cmp_trans a b c :
  not_nan a → not_nan b → not_nan c →
  float_cmp a b = Lt → float_cmp b c = Lt → float_cmp a c = Lt.
Proof.
  unfold float_cmp.
  destruct a as [[]|[]| |[] ma ea], b as [[]|[]| |[] mb eb],
           c as [[]|[]| |[] mc ec]; try done;
    rewrite ?SFcompare_finite; simpl; try done.
  - intros _ _ _ Hab Hbc.
    destruct (magnitude_cmp ea ma eb mb) eqn:H1; try done.
    destruct (magnitude_cmp eb mb ec mc) eqn:H2; try done.
    by rewrite (magnitude_cmp_trans_Gt _ _ _ _ _ _ H1 H2).
  - intros _ _ _ Hab Hbc. by apply (magnitude_cmp_trans _ _ eb mb).
Qed.

Lemma float_cmp_eq_l a b c :
  not_nan a → not_nan b → not_nan c →
  float_cmp a b = Eq → float_cmp a c = float_cmp b c.
Proof.
  unfold float_cmp.
  destruct a as [[]|[]| |[] ma ea], b as [[]|[]| |[] mb eb]; try done;
    rewrite ?SFcompare_finite; simpl; try done.
  - intros _ _ _ Hab.
    destruct (magnitude_cmp ea ma eb mb) eqn:H1; try done.
    by apply magnitude_cmp_Eq in H1 as [-> ->].
  - intros _ _ _ [-> ->]%magnitude_cmp_Eq. done.
Qed.

Lemma SFcompare_not_nan a b :
  not_nan a → not_nan b → SFcompare a b = Some (float_cmp a b).
Proof.
  unfold float_cmp.
  destruct a as [[]|[]| |[] ma ea], b as [[]|[]| |[] mb eb]; try done;
    by rewrite SFcompare_finite.
Qed.

Lemma float_Ordered : Ordered not_nan float_cmp.
Proof.
  split.
  - intros a b Ha Hb. simpl. unfold F.eqb, SFeqb.
    by rewrite (SFcompare_not_nan a b Ha Hb).
  - intros a b Ha Hb. simpl. unfold F.ltb, SFltb.
    by rewrite (SFcompare_not_nan a b Ha Hb).
  - apply float_cmp_refl.
  - apply float_cmp_antisym.
  - apply float_cmp_trans.
  - apply float_cmp_eq_l.
Qed.

End Orders.

(** ** Orders on [None]-or-a-value and on tuples *)

Definition cmp_option {A} (cmp : A → A → comparison) (a b : option A)
  : comparison :=
  match a, b with
  | None, None => Eq
  | None, Some _ => Lt
  | Some _, None => Gt
  | Some x, Some y => cmp x y
  end.

Definition dom_option {A} (dom : A → Prop) (a : option A) : Prop :=
  from_option dom True a.

Definition cmp_pair {A B} (cmpA : A → A → comparison)
    (cmpB : B → B → comparison) (a b : A * B) : comparison :=
  match cmpA a.1 b.1 with
  | Eq => cmpB a.2 b.2
  | r => r
  end.

Definition dom_pair {A B} (domA : A → Prop) (domB : B → Prop) (a : A * B)
  : Prop :=
  domA a.1 ∧ domB a.2.

Section OrderCombinators.
Context {A B : Type} `{PyOrd A, PyOrd B}.
Context (domA : A → Prop) (cmpA : A → A → comparison).
Context (domB : B → Prop) (cmpB : B → B → comparison).

Lemma option_Ordered :
  Ordered domA cmpA → Ordered (dom_option domA) (cmp_option cmpA).
Proof.
  intros [Heq Hlt Hrefl Hanti Htrans Heql]. split.
  - intros [a|] [b|]; simpl; try done. apply Heq.
  - intros [a|] [b|]; simpl; try done. apply Hlt.
  - intros [a|]; simpl; [apply Hrefl|done].
  - intros [a|] [b|]; simpl; try done. apply Hanti.
  - intros [a|] [b|] [c|]; simpl; try done. apply Htrans.
  - intros [a|] [b|] [c|]; simpl; try done. apply Heql.
Qed.

Lemma Ordered_Lt_Eq a b c :
  Ordered domA cmpA → domA a → domA b → domA c →
  cmpA a b = Lt → cmpA b c = Eq → cmpA a c = Lt.
Proof.
  intros [_ _ _ Hanti _ Heql] Ha Hb Hc Hab Hbc.
  rewrite (Hanti c a Hc Ha), <-(Heql b c a Hb Hc Ha Hbc), (Hanti a b Ha Hb).
  by rewrite Hab.
Qed.

Lemma prod_Ordered :
  Ordered domA cmpA → Ordered domB cmpB →
  Ordered (dom_pair domA domB) (cmp_pair cmpA cmpB).
Proof.
  intros HA HB. split.
  - intros [a1 a2] [b1 b2] [Ha1 Ha2] [Hb1 Hb2]. unfold cmp_pair. simpl in *.
    rewrite (ord_eq _ _ HA a1 b1 Ha1 Hb1), (ord_eq _ _ HB a2 b2 Ha2 Hb2).
    by destruct (cmpA a1 b1).
  - intros [a1 a2] [b1 b2] [Ha1 Ha2] [Hb1 Hb2]. unfold cmp_pair. simpl in *.
    rewrite (ord_eq _ _ HA a1 b1 Ha1 Hb1), (ord_lt _ _ HA a1 b1 Ha1 Hb1),
            (ord_lt _ _ HB a2 b2 Ha2 Hb2).
    by destruct (cmpA a1 b1).
  - intros [a1 a2] [Ha1 Ha2]. unfold cmp_pair. simpl in *.
    by rewrite (ord_refl _ _ HA a1 Ha1), (ord_refl _ _ HB a2 Ha2).
  - intros [a1 a2] [b1 b2] [Ha1 Ha2] [Hb1 Hb2]. unfold cmp_pair. simpl in *.
    rewrite (ord_antisym _ _ HA a1 b1 Ha1 Hb1),
            (ord_antisym _ _ HB a2 b2 Ha2 Hb2).
    by destruct (cmpA a1 b1).
  - intros [a1 a2] [b1 b2] [c1 c2] [Ha1 Ha2] [Hb1 Hb2] [Hc1 Hc2].
    unfold cmp_pair. simpl in *.
    destruct (cmpA a1 b1) eqn:Hab; [| |done];
      (destruct (cmpA b1 c1) eqn:Hbc; [| |done]); intros Hab2 Hbc2.
    + rewrite (ord_eq_l _ _ HA a1 b1 c1 Ha1 Hb1 Hc1 Hab), Hbc.
      by apply (ord_trans _ _ HB a2 b2 c2).
    + by rewrite (ord_eq_l _ _ HA a1 b1 c1 Ha1 Hb1 Hc1 Hab), Hbc.
    + by rewrite (Ordered_Lt_Eq a1 b1 c1 HA Ha1 Hb1 Hc1 Hab Hbc).
    + by rewrite (ord_trans _ _ HA a1 b1 c1 Ha1 Hb1 Hc1 Hab Hbc).
  - intros [a1 a2] [b1 b2] [c1 c2] [Ha1 Ha2] [Hb1 Hb2] [Hc1 Hc2].
    unfold cmp_pair. simpl in *.
    destruct (cmpA a1 b1) eqn:Hab; [|done..]. intros Hab2.
    rewrite (ord_eq_l _ _ HA a1 b1 c1 Ha1 Hb1 Hc1 Hab).
    by rewrite (ord_eq_l _ _ HB a2 b2 c2 Ha2 Hb2 Hc2 Hab2).
Qed.

Lemma Ordered_weaken (dom' : A → Prop) :
  (∀ a, dom' a → domA a) → Ordered domA cmpA → Ordered dom' cmpA.
Proof.
  intros Hdom [Heq Hlt Hrefl Hanti Htrans Heql]. split; intros.
  - by apply Heq; apply Hdom.
  - by apply Hlt; apply Hdom.
  - by apply Hrefl; apply Hdom.
  - by apply Hanti; apply Hdom.
  - by apply (Htrans a b c); try apply Hdom.
  - by apply Heql; try apply Hdom.
Qed.

End OrderCombinators.

(** ** [list.sort()] *)

(** A list is ascending when no item is greater than a later one. *)
Definition ascending {A} (cmp : A → A → comparison) (l : list A) : Prop :=
  StronglySorted (λ a b, cmp a b ≠ Gt) l.

Section Sorting.
Context {A : Type} `{PyOrd A}.
Context (dom : A → Prop) (cmp : A → A → comparison).
Hypothesis ordered : Ordered dom cmp.

Lemma insert_sorted_Permutation (x : A) l : insert_sorted x l ≡ₚ x :: l.
Proof.
  induction l as [|y l IH]; simpl; [done|].
  destruct (py_lt x y); [done|]. by rewrite IH, Permutation_swap.
Qed.

Lemma list_sort_Permutation (l : list A) : list_sort l ≡ₚ l.
Proof.
  unfold list_sort.
  enough (Hgen : ∀ acc, foldl (λ acc x, insert_sorted x acc) acc l
                        ≡ₚ l ++ acc)
    by (rewrite Hgen; by rewrite app_nil_r).
  induction l as [|x l IH]; intros acc; simpl; [done|].
  rewrite IH, insert_sorted_Permutation. by rewrite Permutation_middle.
Qed.

Lemma not_Gt_trans a b c :
  dom a → dom b → dom c → cmp a b ≠ Gt → cmp b c ≠ Gt → cmp a c ≠ Gt.
Proof.
  intros Ha Hb Hc Hab Hbc.
  destruct (cmp a b) eqn:Hab'; [| |done].
  - by rewrite (ord_eq_l _ _ ordered a b c Ha Hb Hc Hab').
  - destruct (cmp b c) eqn:Hbc'; [| |done].
    + by rewrite (Ordered_Lt_Eq dom cmp a b c ordered Ha Hb Hc Hab' Hbc').
    + by rewrite (ord_trans _ _ ordered a b c Ha Hb Hc Hab' Hbc').
Qed.

Lemma insert_sorted_ascending x l :
  dom x → Forall dom l → ascending cmp l → ascending cmp (insert_sorted x l).
Proof.
  intros Hx Hl Hsorted.
  induction Hsorted as [|y l Hsorted IH Hy]; simpl.
  { repeat constructor. }
  apply Forall_cons in Hl as [Hdy Hl].
  rewrite (ord_lt _ _ ordered x y Hx Hdy).
  destruct (cmp x y) eqn:Hxy.
  - constructor; [by apply IH|].
    rewrite insert_sorted_Permutation. constructor; [|done].
    rewrite (ord_antisym _ _ ordered x y Hx Hdy), Hxy. done.
  - constructor; [by constructor|].
    constructor; [by rewrite Hxy|].
    rewrite Forall_forall in Hy, Hl. apply Forall_forall. intros z Hz.
    apply (not_Gt_trans x y z); [done|done|by apply Hl|by rewrite Hxy|].
    by apply Hy.
  - constructor; [by apply IH|].
    rewrite insert_sorted_Permutation. constructor; [|done].
    rewrite (ord_antisym _ _ ordered x y Hx Hdy), Hxy. done.
Qed.

Lemma list_sort_ascending l : Forall dom l → ascending cmp (list_sort l).
Proof.
  unfold list_sort.
  enough (Hgen : ∀ acc, Forall dom acc → ascending cmp acc → Forall dom l →
                   ascending cmp (foldl (λ acc x, insert_sorted x acc) acc l))
    by (apply Hgen; [done|constructor]).
  induction l as [|x l IH]; intros acc Hacc Hsorted Hl; simpl; [done|].
  apply Forall_cons in Hl as [Hx Hl]. apply IH; [|by apply insert_sorted_ascending|done].
  rewrite insert_sorted_Permutation. by constructor.
Qed.

Lemma ascending_head h t x :
  ascending cmp (h :: t) → x ∈ t → cmp h x ≠ Gt.
Proof.
  intros Hsorted%StronglySorted_inv Hx. destruct Hsorted as [_ Hall].
  rewrite Forall_forall in Hall. by apply Hall.
Qed.

End Sorting.

(** ** The ranking of [choose_channels] *)

(** The order of bucket keys and of the tuples of [useful_bics]. *)
Definition bic_cmp : BIC → BIC → comparison :=
  cmp_pair String.compare (cmp_option String.compare).

Definition key_cmp : RankKey → RankKey → comparison :=
  cmp_pair
    (cmp_pair
       (cmp_pair
          (cmp_pair (cmp_pair Z.compare Nat.compare) float_cmp)
          Nat.compare)
       Nat.compare)
    bic_cmp.

(** The third item of a tuple is a number. *)
Definition key_dom (key : RankKey) : Prop := not_nan key.1.1.1.2.

Lemma bic_cmp_Eq a b : bic_cmp a b = Eq → a = b.
Proof.
  destruct a as [a1 a2], b as [b1 b2]. unfold bic_cmp, cmp_pair. simpl.
  destruct (String.compare a1 b1) eqn:H1; [|done..].
  apply String.compare_eq_iff in H1 as ->.
  destruct a2 as [a2|], b2 as [b2|]; simpl; try done.
  by intros ->%String.compare_eq_iff.
Qed.

Lemma key_cmp_Eq a b : key_cmp a b = Eq → a.2 = b.2.
Proof.
  unfold key_cmp. unfold cmp_pair at 1.
  destruct (cmp_pair _ _ a.1 b.1); [|done..]. apply bic_cmp_Eq.
Qed.

Lemma key_Ordered : Ordered key_dom key_cmp.
Proof.
  eapply Ordered_weaken;
    [|apply prod_Ordered;
       [apply prod_Ordered;
         [apply prod_Ordered;
           [apply prod_Ordered;
             [apply prod_Ordered; [apply Z_Ordered|apply nat_Ordered]
             |apply float_Ordered]
           |apply nat_Ordered]
         |apply nat_Ordered]
       |apply prod_Ordered;
         [apply string_Ordered|apply option_Ordered, string_Ordered]]].
  intros [[[[[n band] rate] unit] inst] [bi u]] Hrate.
  unfold dom_pair, dom_option. simpl. repeat split; try done.
  by destruct u.
Qed.

(** A bucket as [get_channel_groups] returns it: it is not empty and the
    sample rate of its first channel is a number. *)
Definition well_formed (channels : list Channel) : Prop :=
  ∃ channel0 rest rate,
    channels = channel0 :: rest
    ∧ sample_rate channel0 = Some rate
    ∧ not_nan rate.

Lemma consistent_well_formed channels :
  Forall (λ channel, is_Some (sample_rate channel)) channels →
  consistent channels = true → well_formed channels.
Proof.
  intros Hrates Hconsistent.
  destruct channels as [|channel0 rest]; [done|].
  apply Forall_cons in Hrates as [[rate Hrate] _].
  exists channel0, rest, rate. split; [done|]. split; [done|].
  revert Hconsistent. unfold consistent, sample_rates. simpl.
  rewrite Hrate, same_floats. simpl.
  by destruct rate.
Qed.

Lemma grouped_bucket self net sta loc cha time timespan groups nsl
    bic_to_channels bic channels :
  outcome (get_channel_groups self net sta loc cha time timespan)
  = Ok groups →
  groups !! nsl = Some bic_to_channels →
  bic_to_channels !! bic = Some channels →
  well_formed channels.
Proof.
  intros Hgroups Hscope Hbucket.
  destruct (get_channel_groups_Ok _ _ _ _ _ _ _ _ Hgroups)
    as (raw & Hraw & Heq & _).
  assert (Hb : bucket groups nsl bic = Some channels).
  { unfold bucket. by rewrite Hscope. }
  rewrite Heq, bucket_keep_consistent in Hb.
  destruct (bucket raw nsl bic) as [channels'|] eqn:Hraw_bucket; [|done].
  simpl in Hb. destruct (consistent channels') eqn:Hconsistent; [|done].
  injection Hb as ->.
  destruct (checked_bucket _ _ _ _ _ _ _ _ _ _ _ _ Hgroups Hraw Hraw_bucket)
    as (Hrates & _).
  by apply consistent_well_formed.
Qed.

Section MonadResults.
Context {W : Type}.

Lemma mapM_fmap_Ok {A B} (f : A → M W B) (g : A → B) xs :
  (∀ x, x ∈ xs → outcome (f x) = Ok (g x)) →
  outcome (mapM f xs) = Ok (g <$> xs).
Proof.
  intros Hf. apply mapM_Ok. induction xs as [|x xs IH]; [constructor|].
  rewrite fmap_cons. constructor; [apply Hf; by left|].
  apply IH. intros x' Hx'. apply Hf. by right.
Qed.

Lemma foldM_foldl_Ok {A B} (f : B → A → M W B) (g : B → A → B) xs acc :
  (∀ acc x, x ∈ xs → outcome (f acc x) = Ok (g acc x)) →
  outcome (foldM f acc xs) = Ok (foldl g acc xs).
Proof.
  revert acc. induction xs as [|x xs IH]; intros acc Hf; [done|].
  simpl. rewrite outcome_bind, Hf by (by left).
  apply IH. intros acc' x' Hx'. apply Hf. by right.
Qed.

End MonadResults.

Lemma omap_id_fmap_filter {A B} (p : A → bool) (g : A → B)
    (xs : list A) :
  omap id ((λ x, if p x then Some (g x) else None) <$> xs)
  = g <$> filter (λ x, p x = true) xs.
Proof.
  induction xs as [|x xs IH]; [done|].
  rewrite fmap_cons, filter_cons. csimpl.
  destruct (p x) eqn:Hp.
  - rewrite decide_True by done. csimpl. by rewrite IH.
  - rewrite decide_False by done. csimpl. by rewrite IH.
Qed.

Section SelectionFacts.
Variable sorted_channels : list Channel → list Channel.
Variable target_sample_rate : option float.
Variable priority_band_code : list string.
Variable priority_units : list string.
Variable priority_instrument_code : list string.

(** The sample rate of a bucket is that of its first channel. *)
Definition bucket_rate (channels : list Channel) : option float :=
  head channels ≫= sample_rate.

(** A bucket passes unless its rate is below the target rate times
    0.99999. *)
Definition passes (channels : list Channel) : bool :=
  match bucket_rate channels with
  | Some rate => negb (below_target target_sample_rate rate)
  | None => false
  end.

(** The index in a priority list of the character [i] of the code of the
    first channel, the length of the list when the code has not three
    characters or the character is not in the list. *)
Definition code_priority (l : list string) (i : nat)
    (channels : list Channel) : nat :=
  match channels with
  | channel0 :: _ =>
      if decide (len (code (node channel0)) = 3%nat)
      then priority l (char_at i (code (node channel0)))
      else length l
  | [] => length l
  end.

(** The rate as it is ranked: negated when no target rate is given. *)
Definition ranked_rate (channels : list Channel) : float :=
  let rate := default F.nan (bucket_rate channels) in
  match target_sample_rate with
  | None => F.opp rate
  | Some _ => rate
  end.

(** The composite key of a bucket. *)
Definition composite_key (item : BIC * list Channel) : RankKey :=
  (- Z.of_nat (length item.2),
   code_priority priority_band_code 0 item.2,
   ranked_rate item.2,
   priority priority_units item.1.2,
   code_priority priority_instrument_code 1 item.2,
   item.1).

(** The sorted tuples of the buckets that pass. *)
Definition ranking (bic_to_channels : Buckets) : list RankKey :=
  list_sort
    (composite_key
       <$> filter (λ item, passes item.2 = true)
                  (map_to_list bic_to_channels)).

Lemma rank_bucket_Ok bic channels :
  well_formed channels →
  outcome (rank_bucket target_sample_rate priority_band_code priority_units
                       priority_instrument_code (bic, channels))
  = Ok (if passes channels then Some (composite_key (bic, channels))
        else None).
Proof.
  intros (channel0 & rest & rate & -> & Hrate & _).
  unfold rank_bucket, passes, composite_key, ranked_rate, bucket_rate.
  simpl. rewrite Hrate. simpl.
  destruct (below_target target_sample_rate rate); simpl; [done|].
  by destruct target_sample_rate.
Qed.

Lemma composite_key_dom bic channels :
  well_formed channels → key_dom (composite_key (bic, channels)).
Proof.
  intros (channel0 & rest & rate & -> & Hrate & Hnum).
  unfold key_dom, composite_key, ranked_rate, bucket_rate. simpl.
  rewrite Hrate. simpl. destruct target_sample_rate; [done|].
  by destruct rate.
Qed.

Definition well_formed_buckets (bic_to_channels : Buckets) : Prop :=
  ∀ bic channels, bic_to_channels !! bic = Some channels →
                  well_formed channels.

Lemma elem_of_ranking bic_to_channels key :
  key ∈ ranking bic_to_channels
  ↔ ∃ bic channels,
      bic_to_channels !! bic = Some channels
      ∧ passes channels = true
      ∧ key = composite_key (bic, channels).
Proof.
  unfold ranking. rewrite list_sort_Permutation, list_elem_of_fmap.
  split.
  - intros ([bic channels] & -> & [Hpasses Hin%elem_of_map_to_list]
                                   %list_elem_of_filter).
    by exists bic, channels.
  - intros (bic & channels & Hbucket & Hpasses & ->).
    exists (bic, channels). split; [done|].
    apply list_elem_of_filter. split; [done|].
    by apply elem_of_map_to_list.
Qed.

Lemma ranking_ascending bic_to_channels :
  well_formed_buckets bic_to_channels →
  ascending key_cmp (ranking bic_to_channels).
Proof.
  intros Hwf. apply (list_sort_ascending key_dom key_cmp key_Ordered).
  apply Forall_forall.
  intros key ([bic channels] & -> & [_ Hin%elem_of_map_to_list]
                                   %list_elem_of_filter)%list_elem_of_fmap.
  apply composite_key_dom. by apply (Hwf bic).
Qed.

(** The first tuple is smaller than that of any other bucket that
    passes. *)
Lemma ranking_head bic_to_channels key rest bic channels :
  well_formed_buckets bic_to_channels →
  ranking bic_to_channels = key :: rest →
  bic_to_channels !! bic = Some channels →
  passes channels = true →
  bic ≠ key.2 →
  key_cmp key (composite_key (bic, channels)) = Lt.
Proof.
  intros Hwf Hranking Hbucket Hpasses Hbic.
  assert (Hin : composite_key (bic, channels) ∈ key :: rest).
  { rewrite <-Hranking. apply elem_of_ranking. by exists bic, channels. }
  apply elem_of_cons in Hin as [Heq|Hin].
  { destruct Hbic. by rewrite <-Heq. }
  pose proof (ranking_ascending _ Hwf) as Hsorted.
  rewrite Hranking in Hsorted.
  pose proof (ascending_head key_cmp _ _ _ Hsorted Hin) as Hle.
  destruct (key_cmp key (composite_key (bic, channels))) eqn:Hcmp;
    [|done..].
  apply key_cmp_Eq in Hcmp. destruct Hbic. by rewrite Hcmp.
Qed.

(** What the entering of the channels of a bucket leaves in the mapping:
    under a channel code, the last of the channels that have it. *)
Lemma enter_channels_lookup nsl channels nslcs nsl' cha :
  enter_channels nsl channels nslcs !! (nsl', cha)
  = if decide (nsl' = nsl)
    then match last (filter (λ c, code (node c) = cha) channels) with
         | Some channel => Some channel
         | None => nslcs !! (nsl', cha)
         end
    else nslcs !! (nsl', cha).
Proof.
  unfold enter_channels.
  induction channels as [|channel channels IH] using rev_ind.
  { simpl. by case_decide. }
  rewrite foldl_app, filter_app. simpl.
  destruct (decide ((nsl, code (node channel)) = (nsl', cha))) as [Heq|Hne].
  - injection Heq as <- <-. rewrite lookup_insert_eq, decide_True by done.
    rewrite filter_cons, decide_True by done.
    by rewrite filter_nil, last_snoc.
  - rewrite lookup_insert_ne by done. rewrite IH.
    case_decide as Hnsl; [|done]. subst nsl'.
    rewrite filter_cons, decide_False by congruence.
    by rewrite filter_nil, app_nil_r.
Qed.

Hypothesis sorted_channels_Permutation : ∀ l, sorted_channels l ≡ₚ l.

(** The channels the loop over the sorted tuples enters for a scope. *)
Definition chosen (bic_to_channels : Buckets) : list Channel :=
  match ranking bic_to_channels with
  | [] => []
  | key :: _ => sorted_channels (default [] (bic_to_channels !! key.2))
  end.

Lemma choose_in_scope_Ok nslcs nsl bic_to_channels :
  well_formed_buckets bic_to_channels →
  outcome (choose_in_scope sorted_channels target_sample_rate
             priority_band_code priority_units priority_instrument_code
             nslcs (nsl, bic_to_channels))
  = Ok (enter_channels nsl (chosen bic_to_channels) nslcs).
Proof.
  intros Hwf. unfold choose_in_scope. rewrite outcome_bind.
  rewrite (mapM_fmap_Ok _
             (λ item, if passes item.2 then Some (composite_key item)
                      else None)).
  2:{ intros [bic channels] Hin%elem_of_map_to_list.
      apply rank_bucket_Ok. by apply (Hwf bic). }
  rewrite omap_id_fmap_filter. fold (ranking bic_to_channels).
  unfold chosen.
  destruct (ranking bic_to_channels) as [|key rest] eqn:Hranking; [done|].
  assert (Hkey : key ∈ ranking bic_to_channels) by (rewrite Hranking; left).
  apply elem_of_ranking in Hkey as (bic & channels & Hbucket & _ & ->).
  destruct (Hwf _ _ Hbucket) as (channel0 & others & _ & -> & _).
  simpl. rewrite Hbucket. simpl.
  destruct (sorted_channels (channel0 :: others)) as [|c cs] eqn:Hsorted;
    [|done].
  pose proof (sorted_channels_Permutation (channel0 :: others)) as Hperm.
  rewrite Hsorted in Hperm. by apply Permutation_nil_cons in Hperm.
Qed.

Lemma foldl_enter_lookup (items : list (NSL * Buckets)) nslcs (nsl : NSL)
    cha :
  NoDup items.*1 →
  foldl (λ nslcs item, enter_channels item.1 (chosen item.2) nslcs)
        nslcs items !! (nsl, cha)
  = match (list_to_map items : Groups) !! nsl with
    | Some bic_to_channels =>
        match last (filter (λ c, code (node c) = cha)
                           (chosen bic_to_channels)) with
        | Some channel => Some channel
        | None => nslcs !! (nsl, cha)
        end
    | None => nslcs !! (nsl, cha)
    end.
Proof.
  revert nslcs.
  induction items as [|[nsl0 bic_to_channels] items IH]; intros nslcs Hnodup;
    [done|].
  rewrite fmap_cons in Hnodup. apply NoDup_cons in Hnodup as [Hfresh Hnodup].
  rewrite list_to_map_cons. cbn [foldl].
  rewrite (IH _ Hnodup), enter_channels_lookup. cbn [fst snd].
  case_decide as Hnsl.
  - subst nsl. rewrite lookup_insert_eq.
    by rewrite (not_elem_of_list_to_map_1 _ _ Hfresh).
  - rewrite lookup_insert_ne by done.
    by destruct (list_to_map items !! nsl).
Qed.

Lemma choose_channels_Ok self time timespan groups :
  outcome (get_channel_groups self None None None None time timespan)
  = Ok groups →
  ∃ nslcs,
    outcome (choose_channels sorted_channels target_sample_rate
               priority_band_code priority_units priority_instrument_code
               self time timespan) = Ok nslcs
    ∧ ∀ (nsl : NSL) (cha : string),
        nslcs !! (nsl, cha)
        = bic_to_channels ← groups !! nsl;
          last (filter (λ c, code (node c) = cha) (chosen bic_to_channels)).
Proof.
  intros Hgroups. unfold choose_channels. rewrite outcome_bind, Hgroups.
  eexists. split.
  - apply (foldM_foldl_Ok _
             (λ nslcs item, enter_channels item.1 (chosen item.2) nslcs)).
    intros nslcs [nsl bic_to_channels] Hin%elem_of_map_to_list.
    apply choose_in_scope_Ok. intros bic channels Hbucket.
    by apply (grouped_bucket _ _ _ _ _ _ _ _ _ _ _ _ Hgroups Hin Hbucket).
  - intros nsl cha.
    rewrite foldl_enter_lookup by apply NoDup_fst_map_to_list.
    rewrite list_to_map_to_list, lookup_empty.
    destruct (groups !! nsl) as [bic_to_channels|]; [|done]. simpl.
    by destruct (last _).
Qed.

End SelectionFacts.


